(** * A shallow embedding of the read-only ext2 interpreter

    The C sources [ext2.c] (volume interpreter) and [ext2fs.c] (FUSE
    bridge) are rendered as functions in a small monad that records every
    positioned read issued against the backing storage.  Machine integers
    are [Z] with their wrap-around written out, packed on-disk records are
    raw byte buffers with little-endian field accessors, and every buffer
    a C function fills through a pointer is passed in and returned. *)

From Stdlib Require Import ZArith List Lia Bool.
From Stdlib Require Import Strings.Byte.
From Stdlib Require Strings.String.
Import ListNotations.
Local Open Scope Z_scope.

(** ** Machine integers *)

Module Word.

Definition wrap (w : Z) (x : Z) : Z := x mod 2 ^ w.

(** Conversion to [uint16_t], [uint32_t], [uint64_t]. *)
Definition wrap16 : Z -> Z := wrap 16.
Definition wrap32 : Z -> Z := wrap 32.
Definition wrap64 : Z -> Z := wrap 64.

(** Conversion to [int] (two's complement, 32 bits). *)
Definition sint32 (x : Z) : Z :=
  let u := wrap32 x in if u <? 2 ^ 31 then u else u - 2 ^ 32.

End Word.
Export Word.

(** ** Bytes and little-endian fields *)

Module Bytes.

Definition byte_val (b : byte) : Z := Z.of_N (Byte.to_N b).

Definition byte_of (z : Z) : byte :=
  match Byte.of_N (Z.to_N (z mod 256)) with
  | Some b => b
  | None => x00
  end.

Fixpoint le_uint (l : list byte) : Z :=
  match l with
  | [] => 0
  | b :: t => byte_val b + 256 * le_uint t
  end.

Fixpoint le_bytes (n : nat) (z : Z) : list byte :=
  match n with
  | O => []
  | S n' => byte_of z :: le_bytes n' (z / 256)
  end.

(** The [n]-byte little-endian field at byte offset [off] of a record. *)
Definition field (off n : nat) (rec : list byte) : Z :=
  le_uint (firstn n (skipn off rec)).

(** Storing [bs] at byte offset [off] of a buffer. *)
Definition poke (off : nat) (bs buf : list byte) : list byte :=
  firstn off buf ++ bs ++ skipn (off + length bs) buf.

Fixpoint bytes_eqb (a b : list byte) : bool :=
  match a, b with
  | [], [] => true
  | x :: a', y :: b' => Byte.eqb x y && bytes_eqb a' b'
  | _, _ => false
  end.

(** The C string that starts at the head of [l]: the bytes before the
    first NUL. *)
Fixpoint cstring (l : list byte) : list byte :=
  match l with
  | [] => []
  | b :: t => if Byte.eqb b x00 then [] else b :: cstring t
  end.

End Bytes.
Export Bytes.

(** ** The packed records of [ext2.h] *)

Module Layout.

(** Modelled from the spec: [ext2.h], which declares [superblock_t],
    [group_desc_t], [inode_t], [dir_entry_t] and [volume_t], is not among
    the sources.  The records are the packed on-disk records of the
    format, read field by field at the byte offsets of the ext2 layout.
    These are the fields of the superblock the sources use. *)
Definition s_blocks_count : list byte -> Z := field 4 4.
Definition s_log_block_size : list byte -> Z := field 24 4.
Definition s_blocks_per_group : list byte -> Z := field 32 4.
Definition s_inodes_per_group : list byte -> Z := field 40 4.
Definition s_magic : list byte -> Z := field 56 2.
Definition s_inode_size : list byte -> Z := field 88 2.

(** Modelled from the spec: the group descriptor holds the block number
    of the group's inode table ([group_desc_t] of [ext2.h]). *)
Definition bg_inode_table : list byte -> Z := field 8 4.

(** Modelled from the spec: an inode holds its mode, its byte size, 12
    direct block-number slots and the single-, double- and triple-indirect
    slots ([inode_t] of [ext2.h]). *)
Definition i_mode : list byte -> Z := field 0 2.
Definition i_size : list byte -> Z := field 4 4.
Definition i_block (inode : list byte) (k : Z) : Z :=
  field (40 + 4 * Z.to_nat k) 4 inode.
Definition i_block_1ind : list byte -> Z := field 88 4.
Definition i_block_2ind : list byte -> Z := field 92 4.
Definition i_block_3ind : list byte -> Z := field 96 4.

(** Modelled from the spec: a directory entry holds an inode number, a
    record length and a name, which the sources read as a C string
    ([dir_entry_t] of [ext2.h]). *)
Definition de_inode_no : list byte -> Z := field 0 4.
Definition de_rec_len : list byte -> Z := field 4 2.
Definition de_name (entry : list byte) : list byte := cstring (skipn 8 entry).

(** Modelled from the spec: the sizes of the records; the superblock is
    taken at the 204 bytes [open_volume_file] reads. *)
Definition sizeof_superblock : nat := 204.
Definition sizeof_group_desc : nat := 32.
Definition sizeof_inode : nat := 128.
Definition sizeof_dir_entry : nat := 264.

(** Modelled from the spec: the value of the format's magic signature
    ([EXT2_SUPER_MAGIC] in [ext2.h]). *)
Definition EXT2_SUPER_MAGIC : Z := 61267.

End Layout.
Export Layout.

Definition EXT2_OFFSET_SUPERBLOCK : Z := 1024.
Definition EXT2_INVALID_BLOCK_NUMBER : Z := wrap32 (-1).

(** Modelled from the spec: [volume_t] of [ext2.h] holds the descriptor,
    the geometry derived at bootstrap, the superblock record and the group
    descriptor table.  [block_size] and [num_groups] are [uint32_t],
    [volume_size] is [uint64_t]. *)
Record volume_t := mkVolume {
  fd : Z;
  block_size : Z;
  volume_size : Z;
  num_groups : Z;
  super : list byte;
  groups : list (list byte)
}.

(** ** The monad: a log of storage reads, traps, and exhausted fuel *)

Inductive event :=
| EvPread (fd count off ret : Z)
| EvVisit (name : list byte) (inode_no : Z).

Inductive outcome (A : Type) :=
| Ret (a : A)
| Trap
| Diverge.
Arguments Ret {A} a.
Arguments Trap {A}.
Arguments Diverge {A}.

Definition M (A : Type) : Type := list event -> outcome A * list event.

Definition ret {A} (a : A) : M A := fun log => (Ret a, log).

Definition bind {A B} (c : M A) (k : A -> M B) : M B :=
  fun log =>
    match c log with
    | (Ret a, log') => k a log'
    | (Trap, log') => (Trap, log')
    | (Diverge, log') => (Diverge, log')
    end.

(** A C operation with no defined result (division by zero, an index
    outside an array). *)
Definition trap {A} : M A := fun log => (Trap, log).

(** A loop that has not left after the iterations it was allowed. *)
Definition diverge {A} : M A := fun log => (Diverge, log).

Definition emit (e : event) : M unit := fun log => (Ret tt, log ++ [e]).

Declare Scope ext2_scope.
Delimit Scope ext2_scope with ext2.
Notation "x <- c1 ;; c2" := (bind c1 (fun x => c2))
  (at level 61, c1 at next level, right associativity) : ext2_scope.
Notation "' pat <- c1 ;; c2" := (bind c1 (fun x => match x with pat => c2 end))
  (at level 61, pat pattern, c1 at next level, right associativity) : ext2_scope.
Local Open Scope ext2_scope.

(** Unsigned division and remainder, which trap on a zero divisor. *)
Definition udiv (a b : Z) : M Z := if b =? 0 then trap else ret (a / b).
Definition umod (a b : Z) : M Z := if b =? 0 then trap else ret (a mod b).

(** ** The host: open files and uninitialised storage *)

Record host := mkHost {
  (** [open(name, O_RDONLY)]: a descriptor, or -1. *)
  h_open : String.string -> Z;
  (** The content behind each descriptor; [None] for a bad descriptor. *)
  h_file : Z -> option (list byte);
  (** What an automatic variable or a fresh allocation holds before it is
      written. *)
  h_uninit : nat -> byte
}.

Section Interp.

Variable h : host.

Definition uninit (n : nat) : list byte := map (h_uninit h) (seq 0 n).

(** [pread(fd, buf, count, off)]: copies up to [count] bytes found at
    [off] to the head of [buf]; the result is the number of bytes copied,
    0 at or after the end of the file, -1 on a bad descriptor or a negative
    offset.  Bytes copied past the end of [buf], which in C land beyond the
    destination, make the buffer longer. *)
Definition pread (fd : Z) (buf : list byte) (count off : Z)
  : M (Z * list byte) :=
  let '(r, buf') :=
    match h_file h fd with
    | None => (-1, buf)
    | Some data =>
        if off <? 0 then (-1, buf)
        else
          let len := Z.of_nat (length data) in
          let n := Z.min count (Z.max 0 (len - off)) in
          let got := firstn (Z.to_nat n) (skipn (Z.to_nat (Z.min off len)) data) in
          (Z.of_nat (length got), got ++ skipn (length got) buf)
    end in
  _ <- emit (EvPread fd count off r) ;;
  ret (r, buf').

(** ** ext2.c

    A parameter declared [uint32_t] or [uint64_t] is converted where the
    function is entered; a result stored in an [int] is converted where it
    is stored. *)

Definition read_block (v : volume_t) (block_no offset size : Z)
  (buffer : list byte) : M (Z * list byte) :=
  let block_no := wrap32 block_no in
  let offset := wrap32 offset in
  let size := wrap32 size in
  pread (fd v) buffer size (wrap32 (wrap32 (block_size v * block_no) + offset)).

(** An element of a C array; an index outside the array has no defined
    value. *)
Definition index {A} (l : list A) (i : Z) : M A :=
  if i <? 0 then trap
  else match nth_error l (Z.to_nat i) with
       | Some a => ret a
       | None => trap
       end.

Definition read_inode (v : volume_t) (inode_no : Z) (buffer : list byte)
  : M (Z * list byte) :=
  let inode_no := wrap32 inode_no in
  blockGroup <- udiv (wrap32 (inode_no - 1)) (s_inodes_per_group (super v)) ;;
  inodeIndex <- umod (wrap32 (inode_no - 1)) (s_inodes_per_group (super v)) ;;
  let blockGroup := sint32 blockGroup in
  let inodeIndex := sint32 inodeIndex in
  gd <- index (groups v) blockGroup ;;
  read_block v (bg_inode_table gd) (inodeIndex * s_inode_size (super v))
    (s_inode_size (super v)) buffer.

Definition read_ind_block_entry (v : volume_t) (ind_block_no index : Z)
  : M Z :=
  let ind_block_no := wrap32 ind_block_no in
  let index := wrap32 index in
  '(_, blockNum) <- read_block v ind_block_no (index * 4) 4 (uninit 4) ;;
  let blockNum := le_uint blockNum in
  if blockNum <? 0 then ret EXT2_INVALID_BLOCK_NUMBER
  else ret blockNum.

Definition get_inode_block_no (v : volume_t) (inode : list byte)
  (block_idx : Z) : M Z :=
  let block_idx := wrap64 block_idx in
  let P := block_size v / 4 in
  if block_idx <? 12 then
    ret (i_block inode block_idx)
  else if block_idx <? wrap32 (P + 12) then
    let newIndex := wrap32 (block_idx - 12) in
    read_ind_block_entry v (i_block_1ind inode) newIndex
  else if block_idx <? wrap32 (12 + wrap32 (wrap32 (P + 1) * P)) then
    outer <- udiv (wrap64 (wrap64 (block_idx - P) + 12)) P ;;
    indBlockNo <- read_ind_block_entry v (i_block_2ind inode) outer ;;
    inner <- umod (wrap64 (block_idx - wrap32 (P + 12))) P ;;
    read_ind_block_entry v indBlockNo inner
  else if block_idx <?
          wrap32 (wrap32 (wrap32 (wrap32 (wrap32 (P + 1) * P) + 1) * P) + 12)
  then
    let base := wrap32 (12 + wrap32 (wrap32 (P + 1) * P)) in
    i3 <- udiv (wrap64 (block_idx - base)) (wrap32 (P * P)) ;;
    indBlockNo2 <- read_ind_block_entry v (i_block_3ind inode) i3 ;;
    r2 <- umod (wrap64 (block_idx - base)) (wrap32 (P * P)) ;;
    i2 <- udiv r2 (wrap32 (block_size v * block_size v)) ;;
    indBlockNo1 <- read_ind_block_entry v indBlockNo2 i2 ;;
    r1 <- umod (wrap64 (block_idx - base)) (wrap32 (P * P)) ;;
    let initialFactor := wrap32 r1 in
    thirdIndirectFactor <- umod initialFactor P ;;
    read_ind_block_entry v indBlockNo1 thirdIndirectFactor
  else
    ret EXT2_INVALID_BLOCK_NUMBER.

Definition read_file_block (v : volume_t) (inode : list byte)
  (offset max_size : Z) (buffer : list byte) : M (Z * list byte) :=
  let offset := wrap64 offset in
  let max_size := wrap64 max_size in
  q <- udiv offset (block_size v) ;;
  let blockIndex := wrap64 (sint32 q) in
  blockNo <- get_inode_block_no v inode blockIndex ;;
  r <- umod offset (block_size v) ;;
  let blockOffset := wrap32 r in
  let size :=
    if wrap32 (block_size v - blockOffset) <? max_size
    then wrap32 (block_size v - blockOffset)
    else wrap32 max_size in
  read_block v blockNo blockOffset size buffer.

(** Modelled from the spec: [inode_file_size] is an inline helper of
    [ext2.h], which is not among the sources; the declared byte size of an
    inode is the low half [i_size] only. *)
Definition inode_file_size (v : volume_t) (inode : list byte) : Z :=
  i_size inode.

(** The end-of-file clamp that opens [read_file_content]. *)
Definition clamp_max_size (file_size offset max_size : Z) : Z :=
  if wrap64 (offset + max_size) >? file_size
  then wrap64 (file_size - offset)
  else max_size.

(** The [while] loop of [read_file_content]; [buffer + read_so_far] is the
    tail of the buffer past its first [read_so_far] bytes. *)
Fixpoint read_file_content_loop (fuel : nat) (v : volume_t)
  (inode : list byte) (offset max_size read_so_far : Z) (buffer : list byte)
  : M (Z * list byte) :=
  if read_so_far <? max_size then
    match fuel with
    | O => diverge
    | S fuel' =>
        '(rv, tail) <- read_file_block v inode (offset + read_so_far)
                         (max_size - read_so_far)
                         (skipn (Z.to_nat read_so_far) buffer) ;;
        let buffer' := firstn (Z.to_nat read_so_far) buffer ++ tail in
        let rv := sint32 rv in
        if rv <=? 0 then ret (rv, buffer')
        else read_file_content_loop fuel' v inode offset max_size
               (wrap32 (read_so_far + rv)) buffer'
    end
  else ret (read_so_far, buffer).

Definition read_file_content (fuel : nat) (v : volume_t) (inode : list byte)
  (offset max_size : Z) (buffer : list byte) : M (Z * list byte) :=
  let offset := wrap64 offset in
  let max_size := wrap64 max_size in
  let max_size := clamp_max_size (inode_file_size v inode) offset max_size in
  read_file_content_loop fuel v inode offset max_size 0 buffer.

(** A call of the visitor [f]; the call is recorded. *)
Definition visit (f : list byte -> Z -> Z) (entry : list byte) : M Z :=
  _ <- emit (EvVisit (de_name entry) (de_inode_no entry)) ;;
  ret (f (de_name entry) (de_inode_no entry)).

Definition is_non_null {A} (p : option A) : bool :=
  match p with Some _ => true | None => false end.

(** A read whose destination is a local object of [cap] bytes: bytes
    stored past the end of the object overrun it, which has no defined
    result. *)
Definition into_local (cap : nat) (c : M (Z * list byte))
  : M (Z * list byte) :=
  '(r, buf) <- c ;;
  if (length buf <=? cap)%nat then ret (r, buf) else trap.

(** The [for] loop of [follow_directory_entries].  The caller's [buffer]
    is [None] for a NULL pointer. *)
Fixpoint follow_directory_entries_loop (fuel : nat) (v : volume_t)
  (inode : list byte) (buffer : option (list byte))
  (f : list byte -> Z -> Z) (offset : Z) (newDirEntry : list byte)
  : M (Z * option (list byte)) :=
  if wrap32 offset <? i_size inode then
    match fuel with
    | O => diverge
    | S fuel' =>
        '(_, e1) <- into_local sizeof_dir_entry
                      (read_file_block v inode offset (de_rec_len newDirEntry)
                         newDirEntry) ;;
        '(_, e2) <- into_local sizeof_dir_entry
                      (read_file_block v inode offset (de_rec_len e1) e1) ;;
        r <- visit f e2 ;;
        if negb (r =? 0) && is_non_null buffer then
          ret (de_inode_no e2, Some (firstn sizeof_dir_entry e2))
        else
          follow_directory_entries_loop fuel' v inode buffer f
            (sint32 (offset + de_rec_len e2)) e2
    end
  else ret (0, buffer).

Definition follow_directory_entries (fuel : nat) (v : volume_t)
  (inode : list byte) (buffer : option (list byte))
  (f : list byte -> Z -> Z) : M (Z * option (list byte)) :=
  let newDirEntry := uninit sizeof_dir_entry in
  '(_, firstSize) <- read_file_block v inode 4 2 (uninit 2) ;;
  let firstSize := le_uint firstSize in
  '(_, newDirEntry) <- into_local sizeof_dir_entry
                         (read_file_block v inode 0 firstSize newDirEntry) ;;
  r <- visit f newDirEntry ;;
  if negb (r =? 0) && is_non_null buffer then
    ret (de_inode_no newDirEntry, Some (firstn sizeof_dir_entry newDirEntry))
  else
    follow_directory_entries_loop fuel v inode buffer f firstSize newDirEntry.

(** [!strcmp(name, context)]. *)
Definition compare_file_name (name : list byte) (inode_no : Z)
  (context : list byte) : Z :=
  if bytes_eqb name (cstring context) then 1 else 0.

Definition find_file_in_directory (fuel : nat) (v : volume_t)
  (inode name : list byte) (buffer : option (list byte))
  : M (Z * option (list byte)) :=
  follow_directory_entries fuel v inode buffer
    (fun n i => compare_file_name n i name).

(** [path[i]] of a NUL-terminated string given by the bytes before its
    terminator. *)
Definition path_at (path : list byte) (i : Z) : byte :=
  nth (Z.to_nat i) path x00.

Definition slash : byte := x2f.

(** The [for] loop of [find_file_from_path]; [n] bounds the iterations,
    of which a path of [n] bytes needs no more than [n]. *)
Fixpoint find_file_from_path_loop (n fuel : nat) (v : volume_t)
  (path : list byte) (i nameStart nameIndex : Z)
  (currInode currDir : list byte) : M (list byte * list byte) :=
  if Byte.eqb (path_at path (i - 1)) x00 then ret (currInode, currDir)
  else
    match n with
    | O => diverge
    | S n' =>
        if Byte.eqb (path_at path i) slash || Byte.eqb (path_at path i) x00
        then
          if nameStart =? nameIndex then ret (currInode, currDir)
          else
            let currName :=
              firstn (Z.to_nat (nameIndex - nameStart))
                (skipn (Z.to_nat nameStart) path) in
            '(found, out) <- find_file_in_directory fuel v currInode currName
                               (Some currDir) ;;
            let currDir := match out with Some d => d | None => currDir end in
            let currInodeNum := sint32 found in
            if currInodeNum =? 0 then ret (currInode, currDir)
            else
              '(_, currInode) <- into_local sizeof_inode
                                   (read_inode v currInodeNum currInode) ;;
              find_file_from_path_loop n' fuel v path (i + 1) (i + 1) (i + 1)
                currInode currDir
        else
          find_file_from_path_loop n' fuel v path (i + 1) nameStart
            (nameIndex + 1) currInode currDir
    end.

(** The result pairs the returned inode number with what [*dest_inode]
    holds afterwards. *)
Definition find_file_from_path (fuel : nat) (v : volume_t)
  (path : list byte) (dest_inode : list byte) : M (Z * list byte) :=
  let path := cstring path in
  if Byte.eqb (path_at path 0) slash then
    gd <- index (groups v) 0 ;;
    '(_, currInode) <- into_local sizeof_inode
                         (read_block v (bg_inode_table gd)
                            (s_inode_size (super v)) (s_inode_size (super v))
                            (uninit sizeof_inode)) ;;
    let currInodeNum := 2 in
    let currDir := poke 0 (le_bytes 4 currInodeNum) (uninit sizeof_dir_entry) in
    '(currInode, currDir) <- find_file_from_path_loop (length path) fuel v
                               path 1 1 1 currInode currDir ;;
    ret (de_inode_no currDir, currInode)
  else ret (0, dest_inode).

(** [open_volume_file]; [None] is the NULL result.  The function frees
    the one 32-byte descriptor record it has read before it returns, so
    the table of the volume it returns is a dangling pointer: a table
    without any readable record.  The count of the shift that gives the
    block size is taken modulo 32, as the 32-bit shift of the build takes
    it, and the result modulo [2^32]. *)
Definition open_volume_file (filename : String.string)
  : M (option volume_t) :=
  let fd := h_open h filename in
  if fd <? 0 then ret None
  else
    '(superRead, newSuperBlock) <- pread fd (uninit sizeof_superblock) 204
                                     1024 ;;
    if negb (sint32 superRead =? 204) then ret None
    else
      let block_size :=
        wrap32 (Z.shiftl 1024 (s_log_block_size newSuperBlock mod 32)) in
      let volume_size := wrap32 (block_size * s_blocks_count newSuperBlock) in
      q <- udiv (s_blocks_count newSuperBlock)
             (s_blocks_per_group newSuperBlock) ;;
      r <- umod (s_blocks_count newSuperBlock)
             (s_blocks_per_group newSuperBlock) ;;
      let num_groups := wrap32 (q + (if r =? 0 then 0 else 1)) in
      '(groupRead, newGroupDesc) <- pread fd (uninit sizeof_group_desc) 32
                                      (wrap32 (1024 + block_size)) ;;
      if negb (sint32 groupRead =? 32) then ret None
      else
        ret (Some (mkVolume fd block_size volume_size num_groups
                     newSuperBlock [])).

(** ** ext2fs.c *)

(** [ext2_read] on the mounted [volume]; [fh] is the handle stored by
    [ext2_open], [offset] an [off_t]. *)
Definition ext2_read (v : volume_t) (fh : Z) (buf : list byte)
  (size offset : Z) : M (Z * list byte) :=
  '(_, currInode) <- read_inode v fh (uninit sizeof_inode) ;;
  q <- (if block_size v =? 0 then trap else ret (Z.quot offset (block_size v))) ;;
  blockNo <- get_inode_block_no v currInode q ;;
  '(r, buf) <- read_block v blockNo offset size buf ;;
  ret (sint32 r, buf).

End Interp.

(** ** A sample volume

    A 16-block image with 1024-byte blocks: boot block 0, superblock in
    block 1, group descriptors in block 2, the inode table in blocks 5-6,
    the root directory in block 7, file data in blocks 8-10 and an
    indirect-block chain in blocks 11-13. *)

Module Sample.

Import String.

Definition u16 : Z -> list byte := le_bytes 2.
Definition u32 : Z -> list byte := le_bytes 4.
Definition zeros (n : nat) : list byte := repeat x00 n.
Definition name_of (s : String.string) : list byte :=
  String.list_byte_of_string s.

Definition mk_superblock (magic : Z) : list byte :=
  u32 16 ++ u32 16 ++ zeros 16 ++ u32 0 ++ zeros 4 ++ u32 8192 ++ zeros 4
  ++ u32 16 ++ zeros 12 ++ u16 magic ++ zeros 30 ++ u16 128 ++ zeros 114.

Definition group_desc : list byte :=
  u32 3 ++ u32 4 ++ u32 5 ++ zeros 20.

Definition mk_inode (mode size : Z) (blocks : list Z) : list byte :=
  u16 mode ++ u16 0 ++ u32 size ++ zeros 32
  ++ flat_map u32 (firstn 15 (blocks ++ repeat 0 15)) ++ zeros 28.

Definition mk_dir_entry (ino rec_len : Z) (name : list byte) : list byte :=
  u32 ino ++ u16 rec_len ++ [byte_of (Z.of_nat (List.length name)); x01]
  ++ name ++ zeros (Z.to_nat rec_len - 8 - List.length name).

Definition root_inode : list byte := mk_inode 16877 1024 [7].
Definition hello_inode : list byte := mk_inode 33188 2048 [8; 9].
Definition sparse_inode : list byte := mk_inode 33188 1024 [0].
Definition big_inode : list byte :=
  mk_inode 33188 1048576 [0; 0; 0; 0; 0; 0; 0; 0; 0; 0; 0; 0; 0; 11].
Definition tiny_inode : list byte := mk_inode 33188 4 [8].

Definition root_directory : list byte :=
  mk_dir_entry 2 12 (name_of "."%string) ++ mk_dir_entry 2 12 (name_of ".."%string)
  ++ mk_dir_entry 12 16 (name_of "hello"%string)
  ++ mk_dir_entry 13 16 (name_of "sparse"%string)
  ++ mk_dir_entry 14 12 (name_of "big"%string)
  ++ mk_dir_entry 15 16 (name_of "tiny"%string)
  ++ mk_dir_entry 0 256 [] ++ mk_dir_entry 0 256 []
  ++ mk_dir_entry 0 256 [] ++ mk_dir_entry 0 172 [].

Definition fill (b : byte) (n : Z) : list byte := repeat b (Z.to_nat n).

Definition mk_image (magic : Z) : list byte :=
  fold_left (fun img p => poke (Z.to_nat (fst p)) (snd p) img)
    [ (0, [xeb; x3c; x90; x4d]);
      (1024, mk_superblock magic);
      (2048, group_desc);
      (5248, root_inode);
      (6528, hello_inode);
      (6656, sparse_inode);
      (6784, big_inode);
      (6912, tiny_inode);
      (7168, root_directory);
      (8192, fill x41 1024);
      (9216, fill x42 1024);
      (10240, fill x43 1024);
      (11264, u32 12 ++ u32 13);
      (13216, u32 100);
      (14240, u32 200) ]
    (fill x00 16384).

Definition image : list byte := Eval vm_compute in mk_image EXT2_SUPER_MAGIC.

(** The same image with the magic signature cleared. *)
Definition image_no_magic : list byte := Eval vm_compute in mk_image 0.

(** One open file, behind descriptor 3; fresh storage holds [0xAA]. *)
Definition host_of (img : list byte) : host :=
  mkHost (fun _ => 3)
         (fun fd => if fd =? 3 then Some img else None)
         (fun _ => xaa).

Definition sample_host : host := host_of image.

Definition volume : volume_t :=
  mkVolume 3 1024 16384 1 (mk_superblock EXT2_SUPER_MAGIC) [group_desc].

Definition image_name : string := "disk.img".
Definition nodir : list byte := name_of "nodir".
Definition path_nodir_hello : list byte := name_of "/nodir/hello".
Definition path_hello : list byte := name_of "/hello".
Definition dot : list byte := name_of ".".
Definition path_tiny : list byte := name_of "/tiny".

End Sample.

(** ** What the format prescribes, for comparison *)

(** The double-indirect lookup in the words of the design: the outer
    entry at [(index - 12 - P) / P] of the inode's double-indirect block,
    then the inner entry at [(index - 12 - P) mod P] of the block the
    outer entry names. *)
Definition double_indirect_spec (h : host) (v : volume_t) (inode : list byte)
  (index : Z) : M Z :=
  let P := block_size v / 4 in
  (inner_block <- read_ind_block_entry h v (i_block_2ind inode)
                    ((index - 12 - P) / P) ;;
   read_ind_block_entry h v inner_block ((index - 12 - P) mod P))%ext2.

(** The events of a log that are calls of the visitor. *)
Definition visits (log : list event) : list event :=
  filter (fun e => match e with EvVisit _ _ => true | _ => false end) log.

(** The events of a log that are reads of the backing storage. *)
Definition storage_reads (log : list event) : list event :=
  filter (fun e => match e with EvPread _ _ _ _ => true | _ => false end) log.

(** A volume whose [uint32_t] block size is in range. *)
Definition volume_ok (v : volume_t) : Prop := 0 <= block_size v < 2 ^ 32.

(** A geometry on which no division of the resolver has a zero divisor. *)
Definition geometry_ok (v : volume_t) : Prop :=
  4 <= block_size v < 2 ^ 32
  /\ wrap32 (block_size v / 4 * (block_size v / 4)) <> 0
  /\ wrap32 (block_size v * block_size v) <> 0.

(** ** The rest of the bridge, ext2fs.c *)

Module Inode.

(** Modelled from the spec: the further fields of [inode_t] ([ext2.h])
    that the metadata query copies, at their offsets in the on-disk
    inode. *)
Definition i_uid : list byte -> Z := field 2 2.
Definition i_atime : list byte -> Z := field 8 4.
Definition i_ctime : list byte -> Z := field 12 4.
Definition i_mtime : list byte -> Z := field 16 4.
Definition i_gid : list byte -> Z := field 24 2.
Definition i_links_count : list byte -> Z := field 26 2.
Definition i_blocks : list byte -> Z := field 28 4.

End Inode.
Export Inode.

(** The error numbers and open flags of the host's C library. *)
Definition ENOENT : Z := 2.
Definition EACCES : Z := 13.
Definition EISDIR : Z := 21.
Definition O_WRONLY : Z := 1.
Definition O_RDWR : Z := 2.

(** The fields of [struct stat] that [ext2_getattr] assigns. *)
Record stat := mkStat {
  st_ino : Z;
  st_mode : Z;
  st_nlink : Z;
  st_uid : Z;
  st_gid : Z;
  st_size : Z;
  st_atime : Z;
  st_mtime : Z;
  st_ctime : Z;
  st_blocks : Z
}.

Section Bridge.

Variable h : host.

(** [ext2_getattr]: the result and what [*stbuf] holds afterwards. *)
Definition ext2_getattr (fuel : nat) (v : volume_t) (path : list byte)
  (stbuf : stat) : M (Z * stat) :=
  '(inodeNo, currInode) <- find_file_from_path h fuel v path
                             (uninit h sizeof_inode) ;;
  if inodeNo =? 0 then ret (- ENOENT, stbuf)
  else
    ret (0, mkStat inodeNo (i_mode currInode) (i_links_count currInode)
              (i_uid currInode) (i_gid currInode)
              (inode_file_size v currInode) (i_atime currInode)
              (i_mtime currInode) (i_ctime currInode) (i_blocks currInode)).

(** [readdir_helper_function]: the visitor that hands each name to the
    filler and returns the filler's result.  The filler is taken by the
    result it gives for a name; the names it is given are the visits of
    the log. *)
Definition readdir_helper_function (filler : list byte -> Z)
  (name : list byte) (inode_no : Z) : Z :=
  filler name.

Definition ext2_readdir (fuel : nat) (v : volume_t) (path : list byte)
  (filler : list byte -> Z) : M Z :=
  '(dirInodeNo, dirInode) <- find_file_from_path h fuel v path
                               (uninit h sizeof_inode) ;;
  if dirInodeNo =? 0 then ret (- ENOENT)
  else
    '(found, _) <- follow_directory_entries h fuel v dirInode
                     (Some (uninit h sizeof_dir_entry))
                     (readdir_helper_function filler) ;;
    if found =? 0 then ret (- ENOENT) else ret 0.

(** [ext2_open]: the result and what [fi->fh] holds afterwards. *)
Definition ext2_open (fuel : nat) (v : volume_t) (path : list byte)
  (flags fh : Z) : M (Z * Z) :=
  if negb (Z.land flags O_WRONLY =? 0) || negb (Z.land flags O_RDWR =? 0)
  then ret (- EACCES, fh)
  else
    '(inodeNo, currInode) <- find_file_from_path h fuel v path
                               (uninit h sizeof_inode) ;;
    if inodeNo =? 0 then ret (- ENOENT, inodeNo)
    else if i_mode currInode =? 8192 then ret (- EISDIR, inodeNo)
    else ret (0, inodeNo).

Definition ext2_release (path : list byte) (fh : Z) : M Z := ret 0.

(** [ext2_readlink]: the result and what the caller's [buf] holds
    afterwards.  For a target of at most 60 bytes the function assigns its
    own pointer [buf] and stores nothing through it. *)
Definition ext2_readlink (fuel : nat) (v : volume_t) (path : list byte)
  (buf : list byte) (size : Z) : M (Z * list byte) :=
  '(_, inode) <- find_file_from_path h fuel v path (uninit h sizeof_inode) ;;
  if i_size inode <=? 60 then ret (0, buf)
  else
    '(_, buf) <- read_file_block h v inode 0 size buf ;;
    ret (0, buf).

End Bridge.

(** The number of indirect-block entries the addressing tree of the
    format reads for a logical index, with [P] entries per block. *)
Definition tier_reads (P block_idx : Z) : nat :=
  if block_idx <? 12 then 0
  else if block_idx <? 12 + P then 1
  else if block_idx <? 12 + P + P ^ 2 then 2
  else if block_idx <? 12 + P + P ^ 2 + P ^ 3 then 3
  else 0.

(** A volume with one of the block sizes for which the 32-bit tier bounds
    of the resolver do not wrap. *)
Definition small_blocks (v : volume_t) : Prop := 4 <= block_size v <= 4096.

(** What every return of the iteration satisfies: a result with the
    caller's buffer untouched is 0; any other result is the inode number of
    the entry visited last, for which the visitor returned non-zero and
    which went to a non-NULL buffer. *)
Definition iteration_result (f : list byte -> Z -> Z)
  (buffer : option (list byte)) (n : Z) (out : option (list byte))
  (log' : list event) : Prop :=
  (n = 0 /\ out = buffer)
  \/ (is_non_null buffer = true
      /\ exists l name, log' = l ++ [EvVisit name n] /\ f name n <> 0).

(** * Properties *)

(** ** Sparse blocks *)

(** C1: reading through a hole.  The first logical block of the sparse
    file of the sample volume resolves to physical block 0, yet
    [read_file_block] issues a 4-byte read at byte 0 of the storage and
    hands back the first bytes of the boot block instead of zero bytes. *)
Theorem read_file_block_hole_reads_storage :
  get_inode_block_no Sample.sample_host Sample.volume Sample.sparse_inode 0 []
  = (Ret 0, [])
  /\ read_file_block Sample.sample_host Sample.volume Sample.sparse_inode 0 4
       [x00; x00; x00; x00] []
     = (Ret (4, [xeb; x3c; x90; x4d]), [EvPread 3 4 0 4]).
Proof. split; vm_compute; reflexivity. Qed.

(** ** Path resolution *)

(** C2: a missing component.  In the root directory of the sample volume
    the name [nodir] is absent and [find_file_in_directory] returns 0 for
    it; [find_file_from_path] then leaves its loop, so [hello] is never
    looked up, but it returns the inode number left in [currDir], 2, and
    not 0. *)
Theorem find_file_from_path_missing_component :
  let lookup :=
    find_file_in_directory Sample.sample_host 16 Sample.volume
      Sample.root_inode Sample.nodir
      (Some (uninit Sample.sample_host sizeof_dir_entry)) [] in
  let '(r, log) :=
    find_file_from_path Sample.sample_host 16 Sample.volume
      Sample.path_nodir_hello [] [] in
  fst lookup = Ret (0, Some (uninit Sample.sample_host sizeof_dir_entry))
  /\ r = Ret (2, Sample.root_inode)
  /\ visits log = visits (snd lookup).
Proof. vm_compute. repeat split. Qed.

(** ** The bridge read *)

(** C3: [ext2_read] against [read_file_content].  On the two-block file
    [hello] (inode 12, blocks 8 and 9) a 4-byte read at offset 1024 goes
    through [read_file_content] to the head of block 9, whereas [ext2_read]
    adds the whole file offset to the start of block 9 and returns bytes of
    block 10, which is not part of the file.  On the 4-byte file [tiny]
    (inode 15) an 8-byte read at offset 0 is cut to 4 bytes by
    [read_file_content] and is served in full by [ext2_read]. *)
Theorem ext2_read_differs_from_read_file_content :
  ext2_read Sample.sample_host Sample.volume 12 [x00; x00; x00; x00] 4 1024 []
  = (Ret (4, [x43; x43; x43; x43]),
     [EvPread 3 128 6528 128; EvPread 3 4 10240 4])
  /\ read_file_content Sample.sample_host 4 Sample.volume Sample.hello_inode
       1024 4 [x00; x00; x00; x00] []
     = (Ret (4, [x42; x42; x42; x42]), [EvPread 3 4 9216 4])
  /\ fst (ext2_read Sample.sample_host Sample.volume 15 (Sample.fill x00 8)
            8 0 [])
     = Ret (8, Sample.fill x41 8)
  /\ fst (read_file_content Sample.sample_host 4 Sample.volume
            Sample.tiny_inode 0 8 (Sample.fill x00 8) [])
     = Ret (4, Sample.fill x41 4 ++ Sample.fill x00 4).
Proof. repeat split; vm_compute; reflexivity. Qed.

(** ** Block-address resolution *)

(** C4: the double-indirect tier.  With 1024-byte blocks ([P] = 256) the
    logical index 500 lies in the tier; the design prescribes outer entry
    [(500 - 12 - 256) / 256 = 0] and inner entry 232, which on the sample
    volume is block 100.  [get_inode_block_no] reads outer entry 1 (byte
    11268 of the storage) and returns block 200. *)
Theorem get_inode_block_no_double_indirect_outer_index :
  12 + 256 <= 500 < 12 + 256 + 256 * 256
  /\ double_indirect_spec Sample.sample_host Sample.volume Sample.big_inode
       500 []
     = (Ret 100, [EvPread 3 4 11264 4; EvPread 3 4 13216 4])
  /\ get_inode_block_no Sample.sample_host Sample.volume Sample.big_inode
       500 []
     = (Ret 200, [EvPread 3 4 11268 4; EvPread 3 4 14240 4]).
Proof. split; [lia | split; vm_compute; reflexivity]. Qed.

(** ** Bootstrap *)

(** C5: a superblock without the magic signature.  The image whose
    magic field holds 0 is opened all the same: [open_volume_file] returns
    a volume after its two reads. *)
Theorem open_volume_file_ignores_magic :
  let h := Sample.host_of Sample.image_no_magic in
  exists v,
    open_volume_file h Sample.image_name []
    = (Ret (Some v), [EvPread 3 204 1024 204; EvPread 3 32 2048 32])
    /\ s_magic (super v) = 0
    /\ s_magic (super v) <> EXT2_SUPER_MAGIC
    /\ block_size v = 1024.
Proof.
  eexists. split; [vm_compute; reflexivity|].
  vm_compute. repeat split. discriminate.
Qed.

(** ** End-of-file clamp *)

(** C7: a length that overflows the clamp test.  On the 4-byte file
    [tiny], at offset 4 (its declared size) and with the requested length
    [2^64 - 1], the sum [offset + max_size] wraps to 3, the clamp is
    skipped, and the call copies 1020 bytes of block 8 and eleven further
    blocks into the buffer before a block read comes back empty and 0 is
    returned. *)
Theorem read_file_content_clamp_overflow :
  let fs := inode_file_size Sample.volume Sample.tiny_inode in
  fs = 4
  /\ wrap64 (4 + (2 ^ 64 - 1)) = 3
  /\ clamp_max_size fs 4 (2 ^ 64 - 1) = 2 ^ 64 - 1
  /\ match read_file_content Sample.sample_host 16 Sample.volume
             Sample.tiny_inode 4 (2 ^ 64 - 1) (Sample.fill x00 12288) [] with
     | (Ret (rv, buffer), log) =>
         rv = 0
         /\ firstn 1020 buffer = Sample.fill x41 1020
         /\ length (storage_reads log) = 14%nat
         /\ hd_error log = Some (EvPread 3 1020 8196 1020)
     | _ => False
     end.
Proof. vm_compute. repeat split. Qed.

(** ** Directory iteration *)

(** C8: a visitor that stops, with no entry buffer.  On the root
    directory of the sample volume a visitor that returns 1 for every
    entry ends the iteration at the first entry when the caller supplies a
    buffer (result 2, the inode of [.]); with a NULL buffer the same
    visitor is called for all ten entries and the result is 0. *)
Theorem follow_directory_entries_null_buffer :
  let stop := fun (_ : list byte) (_ : Z) => 1 in
  let with_buffer :=
    follow_directory_entries Sample.sample_host 16 Sample.volume
      Sample.root_inode (Some (uninit Sample.sample_host sizeof_dir_entry))
      stop [] in
  let without_buffer :=
    follow_directory_entries Sample.sample_host 16 Sample.volume
      Sample.root_inode None stop [] in
  (exists entry, fst with_buffer = Ret (2, Some entry))
  /\ visits (snd with_buffer) = [EvVisit Sample.dot 2]
  /\ fst without_buffer = Ret (0, None)
  /\ length (visits (snd without_buffer)) = 10%nat
  /\ hd_error (visits (snd without_buffer)) = Some (EvVisit Sample.dot 2).
Proof.
  split; [eexists; vm_compute; reflexivity|].
  vm_compute. repeat split.
Qed.

(** ** Arithmetic of the machine integers *)

Section WordFacts.

Lemma wrap_range (w x : Z) : 0 <= w -> 0 <= wrap w x < 2 ^ w.
Proof.
  intros Hw. unfold wrap. apply Z.mod_pos_bound.
  apply Z.pow_pos_nonneg; lia.
Qed.

Lemma wrap_small (w x : Z) : 0 <= x < 2 ^ w -> wrap w x = x.
Proof. intros Hx. unfold wrap. apply Z.mod_small. exact Hx. Qed.

Lemma wrap_le (w x : Z) : 0 <= w -> 0 <= x -> wrap w x <= x.
Proof.
  intros Hw Hx. unfold wrap. apply Z.mod_le; [exact Hx|].
  apply Z.pow_pos_nonneg; lia.
Qed.

Lemma wrap32_range (x : Z) : 0 <= wrap32 x < 2 ^ 32.
Proof. apply wrap_range. lia. Qed.

Lemma wrap32_le (x : Z) : 0 <= x -> wrap32 x <= x.
Proof. apply wrap_le. lia. Qed.

Lemma wrap32_small (x : Z) : 0 <= x < 2 ^ 32 -> wrap32 x = x.
Proof. apply wrap_small. Qed.

Lemma wrap64_small (x : Z) : 0 <= x < 2 ^ 64 -> wrap64 x = x.
Proof. apply wrap_small. Qed.

Lemma wrap64_neg (x : Z) : - 2 ^ 64 <= x < 0 -> wrap64 x = x + 2 ^ 64.
Proof.
  intros Hx. unfold wrap64, wrap.
  symmetry. apply (Z.mod_unique_pos x (2 ^ 64) (-1)); lia.
Qed.

Lemma byte_val_range (b : byte) : 0 <= byte_val b < 256.
Proof. destruct b; vm_compute; split; congruence. Qed.

Lemma le_uint_range (l : list byte) :
  0 <= le_uint l < 256 ^ Z.of_nat (length l).
Proof.
  induction l as [|b t IH]; cbn [le_uint length].
  - simpl. lia.
  - pose proof (byte_val_range b) as Hb.
    rewrite Nat2Z.inj_succ, Z.pow_succ_r by lia. lia.
Qed.

Lemma le_uint_nonneg (l : list byte) : 0 <= le_uint l.
Proof. apply le_uint_range. Qed.

Lemma field_nonneg (off n : nat) (rec : list byte) : 0 <= field off n rec.
Proof. apply le_uint_nonneg. Qed.

End WordFacts.

(** ** Storage reads preserve the size of their buffer *)

Lemma pread_returns (h : host) (fd : Z) (buf : list byte) (count off : Z)
  (log : list event) :
  exists r buf',
    pread h fd buf count off log
    = (Ret (r, buf'), log ++ [EvPread fd count off r])
    /\ -1 <= r
    /\ (0 <= count -> r <= count)
    /\ (Z.to_nat count <= length buf -> length buf' = length buf)%nat.
Proof.
  unfold pread. destruct (h_file h fd) as [data|].
  - destruct (off <? 0).
    + exists (-1), buf. repeat split; try lia.
    + eexists _, _. split; [reflexivity|].
      set (n := Z.min count (Z.max 0 (Z.of_nat (length data) - off))).
      set (got := firstn (Z.to_nat n) _).
      assert (Hgot : (length got <= Z.to_nat n)%nat)
        by (unfold got; rewrite length_firstn; lia).
      repeat split; try lia.
      intros Hc. rewrite length_app, length_skipn. lia.
  - exists (-1), buf. repeat split; try lia.
Qed.

Lemma read_block_returns (h : host) (v : volume_t) (block_no offset size : Z)
  (buffer : list byte) (log : list event) :
  exists r buffer' log',
    read_block h v block_no offset size buffer log = (Ret (r, buffer'), log')
    /\ -1 <= r <= wrap32 size
    /\ (Z.to_nat (wrap32 size) <= length buffer ->
        length buffer' = length buffer)%nat.
Proof.
  unfold read_block.
  destruct (pread_returns h (fd v) buffer (wrap32 size)
              (wrap32 (wrap32 (block_size v * wrap32 block_no) + wrap32 offset))
              log) as (r & b & E & Hlo & Hhi & Hlen).
  eexists r, b, _. split; [exact E|].
  pose proof (wrap32_range size). split; [lia | exact Hlen].
Qed.

(** ** Indirect-block entries *)

Lemma read_ind_block_entry_run (h : host) (v : volume_t)
  (ind_block_no index : Z) (log : list event) :
  exists rv blockNum log',
    read_block h v (wrap32 ind_block_no) (wrap32 index * 4) 4 (uninit h 4) log
    = (Ret (rv, blockNum), log')
    /\ 0 <= le_uint blockNum < 2 ^ 32
    /\ read_ind_block_entry h v ind_block_no index log
       = (Ret (le_uint blockNum), log').
Proof.
  destruct (read_block_returns h v (wrap32 ind_block_no) (wrap32 index * 4) 4
              (uninit h 4) log) as (rv & b & log' & E & _ & Hlen).
  exists rv, b, log'.
  assert (Hb : length b = 4%nat).
  { rewrite Hlen; unfold uninit; rewrite length_map, length_seq;
      [reflexivity|]. vm_compute. lia. }
  pose proof (le_uint_range b) as Hr. rewrite Hb in Hr.
  assert (Hguard : (le_uint b <? 0) = false) by (apply Z.ltb_ge; lia).
  repeat split; try assumption; try lia.
  unfold read_ind_block_entry, bind. rewrite E. rewrite Hguard. reflexivity.
Qed.

(** C9: the error branch of [read_ind_block_entry] is dead.  Whatever the
    volume, the indirect block and the entry index, the 4-byte local
    [blockNum] decodes to a value in [0, 2^32), so the test
    [blockNum < 0] is false and the function returns that value, whatever
    [read_block] returned (a failed read included). *)
Theorem read_ind_block_entry_error_branch_dead (h : host) (v : volume_t)
  (ind_block_no index : Z) (log : list event) :
  exists rv blockNum log',
    read_block h v (wrap32 ind_block_no) (wrap32 index * 4) 4 (uninit h 4) log
    = (Ret (rv, blockNum), log')
    /\ (le_uint blockNum <? 0) = false
    /\ 0 <= le_uint blockNum < 2 ^ 32
    /\ read_ind_block_entry h v ind_block_no index log
       = (Ret (le_uint blockNum), log').
Proof.
  destruct (read_ind_block_entry_run h v ind_block_no index log)
    as (rv & b & log' & E & Hr & Hrun).
  exists rv, b, log'. split; [exact E|].
  split; [apply Z.ltb_ge; lia|]. split; [exact Hr | exact Hrun].
Qed.

(** With a bad descriptor the read fails with -1 and the entry returned
    is what the uninitialised local held. *)
Example read_ind_block_entry_failed_read :
  let h := mkHost (fun _ => -1) (fun _ => None) (fun _ => xaa) in
  read_ind_block_entry h Sample.volume 11 0 []
  = (Ret 2863311530, [EvPread 3 4 11264 (-1)]).
Proof. vm_compute. reflexivity. Qed.

(** A read that succeeds returns the entry stored in the block: entry 1
    of block 11 of the sample volume is 13. *)
Example read_ind_block_entry_stored_entry :
  read_ind_block_entry Sample.sample_host Sample.volume 11 1 []
  = (Ret 13, [EvPread 3 4 11268 4]).
Proof. vm_compute. reflexivity. Qed.

(** ** The upper end of the addressing tree *)

(** C6: beyond the triple-indirect tier.  For a volume with block size
    in range and [P = block_size / 4], every 64-bit logical index at or
    above [12 + P + P^2 + P^3] resolves to [EXT2_INVALID_BLOCK_NUMBER]
    (the value [2^32 - 1]) without any read of the storage. *)
Theorem get_inode_block_no_beyond_triple (h : host) (v : volume_t)
  (inode : list byte) (block_idx : Z) (log : list event) :
  volume_ok v ->
  block_idx < 2 ^ 64 ->
  (let P := block_size v / 4 in 12 + P + P ^ 2 + P ^ 3 <= block_idx) ->
  get_inode_block_no h v inode block_idx log
  = (Ret EXT2_INVALID_BLOCK_NUMBER, log)
  /\ EXT2_INVALID_BLOCK_NUMBER = 2 ^ 32 - 1.
Proof.
  intros [Hlo _] Hidx Hge. cbv zeta in Hge.
  split; [|reflexivity].
  unfold get_inode_block_no. cbv zeta.
  set (P := block_size v / 4) in *.
  assert (HP : 0 <= P) by (apply Z.div_pos; lia).
  assert (Hcube : P ^ 3 = P * P * P) by ring.
  assert (Hsq : P ^ 2 = P * P) by ring.
  rewrite Hcube, Hsq in Hge.
  assert (H1 : 0 <= wrap32 (P + 1) <= P + 1)
    by (split; [apply wrap32_range | apply wrap32_le; lia]).
  assert (H2 : 0 <= wrap32 (wrap32 (P + 1) * P) <= (P + 1) * P).
  { split; [apply wrap32_range|].
    etransitivity; [apply wrap32_le; nia | nia]. }
  assert (H3 : 0 <= wrap32 (wrap32 (wrap32 (P + 1) * P) + 1) <= (P + 1) * P + 1).
  { split; [apply wrap32_range|].
    etransitivity; [apply wrap32_le; lia | lia]. }
  assert (H4 : 0 <= wrap32 (wrap32 (wrap32 (wrap32 (P + 1) * P) + 1) * P)
               <= ((P + 1) * P + 1) * P).
  { split; [apply wrap32_range|].
    etransitivity; [apply wrap32_le; nia | nia]. }
  assert (H5 : wrap32 (wrap32 (wrap32 (wrap32 (wrap32 (P + 1) * P) + 1) * P) + 12)
               <= ((P + 1) * P + 1) * P + 12).
  { etransitivity; [apply wrap32_le; lia | lia]. }
  assert (H6 : wrap32 (12 + wrap32 (wrap32 (P + 1) * P)) <= 12 + (P + 1) * P).
  { etransitivity; [apply wrap32_le; lia | lia]. }
  assert (H7 : wrap32 (P + 12) <= P + 12) by (apply wrap32_le; lia).
  assert (Hbig : 12 + P + P * P <= block_idx /\ P + 12 <= block_idx) by nia.
  rewrite (wrap64_small block_idx) by nia.
  replace (block_idx <? 12) with false by (symmetry; apply Z.ltb_ge; lia).
  replace (block_idx <? wrap32 (P + 12)) with false
    by (symmetry; apply Z.ltb_ge; lia).
  replace (block_idx <? wrap32 (12 + wrap32 (wrap32 (P + 1) * P))) with false
    by (symmetry; apply Z.ltb_ge; nia).
  replace (block_idx <?
           wrap32 (wrap32 (wrap32 (wrap32 (wrap32 (P + 1) * P) + 1) * P) + 12))
    with false by (symmetry; apply Z.ltb_ge; nia).
  reflexivity.
Qed.

Lemma get_inode_block_no_beyond_triple_witness :
  volume_ok Sample.volume
  /\ 16843020 < 2 ^ 64
  /\ (let P := block_size Sample.volume / 4 in
      12 + P + P ^ 2 + P ^ 3 <= 16843020)
  /\ get_inode_block_no Sample.sample_host Sample.volume Sample.big_inode
       16843020 []
     = (Ret EXT2_INVALID_BLOCK_NUMBER, []).
Proof.
  assert (Hok : volume_ok Sample.volume) by (split; vm_compute; congruence).
  assert (Hidx : 16843020 < 2 ^ 64) by reflexivity.
  assert (Hge : let P := block_size Sample.volume / 4 in
                12 + P + P ^ 2 + P ^ 3 <= 16843020)
    by (vm_compute; congruence).
  split; [exact Hok | split; [exact Hidx | split; [exact Hge|]]].
  exact (proj1 (get_inode_block_no_beyond_triple Sample.sample_host
                  Sample.volume Sample.big_inode 16843020 [] Hok Hidx Hge)).
Defined.

(** C6, as stated, fails in its last part: the value returned beyond
    the tiers is not distinct from what an I/O failure gives.  On the
    sample volume the index 12 is in range; with a bad descriptor its
    lookup fails (the read returns -1) and the function returns the stale
    bytes of its local, which a host may leave at [0xFF]; with a storage
    of [0xFF] bytes the lookup succeeds.  Both return
    [EXT2_INVALID_BLOCK_NUMBER], the value index 16843020 gets for being
    out of range. *)
Lemma get_inode_block_no_invalid_not_distinct :
  let failing := mkHost (fun _ => -1) (fun _ => None) (fun _ => xff) in
  let all_ff := Sample.host_of (Sample.fill xff 16384) in
  12 <= 12 < 12 + block_size Sample.volume / 4
  /\ get_inode_block_no failing Sample.volume Sample.big_inode 12 []
     = (Ret EXT2_INVALID_BLOCK_NUMBER, [EvPread 3 4 0 (-1)])
  /\ get_inode_block_no all_ff Sample.volume Sample.big_inode 12 []
     = (Ret EXT2_INVALID_BLOCK_NUMBER, [EvPread 3 4 0 4])
  /\ get_inode_block_no failing Sample.volume Sample.big_inode 16843020 []
     = (Ret EXT2_INVALID_BLOCK_NUMBER, []).
Proof.
  vm_compute. repeat split; congruence.
Qed.

(** ** Offsets past the end of the file *)

Lemma read_file_content_loop_first (h : host) (fuel : nat) (v : volume_t)
  (inode : list byte) (offset max_size : Z) (buffer : list byte)
  (log : list event) :
  0 < max_size ->
  read_file_content_loop h (S fuel) v inode offset max_size 0 buffer log
  = ('(rv, tail) <- read_file_block h v inode offset max_size buffer ;;
     if sint32 rv <=? 0 then ret (sint32 rv, tail)
     else read_file_content_loop h fuel v inode offset max_size
            (wrap32 (sint32 rv)) tail) log.
Proof.
  intros Hpos. cbn [read_file_content_loop].
  rewrite (proj2 (Z.ltb_lt 0 max_size) Hpos).
  rewrite Z.add_0_r, Z.sub_0_r. reflexivity.
Qed.

(** C10, as stated, fails in two ways on the 4-byte file [tiny].  At
    offset [2^64 - 1] with one byte requested the sum [offset + max_size]
    wraps to 0, the clamp test fails, the length stays 1 (the wrapped
    difference would be 5) and the call asks the storage for a single
    byte.  At offset [2^64 - 2] with no byte requested the clamp applies
    and wraps, but to 6, which is not near [2^64]. *)
Lemma read_file_content_offset_past_eof_unclamped :
  let fs := inode_file_size Sample.volume Sample.tiny_inode in
  fs < 2 ^ 64 - 1
  /\ clamp_max_size fs (2 ^ 64 - 1) 1 = 1
  /\ clamp_max_size fs (2 ^ 64 - 1) 1 <> wrap64 (fs - (2 ^ 64 - 1))
  /\ read_file_content Sample.sample_host 4 Sample.volume Sample.tiny_inode
       (2 ^ 64 - 1) 1 [x00] []
     = (Ret (0, [x00]), [EvPread 3 1 4294967295 0])
  /\ fs < 2 ^ 64 - 2
  /\ wrap64 (2 ^ 64 - 2 + 0) > fs
  /\ clamp_max_size fs (2 ^ 64 - 2) 0 = 6.
Proof.
  vm_compute. repeat split; congruence.
Qed.

(** C10: an offset past the end of the file.  When the offset exceeds
    the declared size and the clamp test holds as the code computes it
    ([offset + max_size] modulo [2^64] exceeds the size), the clamp
    replaces the length by [file_size - offset] wrapped modulo [2^64],
    that is [2^64 - (offset - file_size)], a positive length of at least
    [2^64 - offset]; the loop is entered and the first single-block read is
    attempted with that length. *)
Theorem read_file_content_offset_past_eof (h : host) (fuel : nat)
  (v : volume_t) (inode : list byte) (offset max_size : Z)
  (buffer : list byte) (log : list event) :
  0 <= max_size < 2 ^ 64 ->
  inode_file_size v inode < offset < 2 ^ 64 ->
  wrap64 (offset + max_size) > inode_file_size v inode ->
  clamp_max_size (inode_file_size v inode) offset max_size
  = 2 ^ 64 - (offset - inode_file_size v inode)
  /\ 0 < 2 ^ 64 - (offset - inode_file_size v inode) < 2 ^ 64
  /\ 2 ^ 64 - offset <= 2 ^ 64 - (offset - inode_file_size v inode)
  /\ read_file_content h (S fuel) v inode offset max_size buffer log
     = ('(rv, tail) <- read_file_block h v inode offset
                         (2 ^ 64 - (offset - inode_file_size v inode))
                         buffer ;;
        if sint32 rv <=? 0 then ret (sint32 rv, tail)
        else read_file_content_loop h fuel v inode offset
               (2 ^ 64 - (offset - inode_file_size v inode))
               (wrap32 (sint32 rv)) tail) log.
Proof.
  intros Hms Hpast Htest.
  assert (Hfs : 0 <= inode_file_size v inode) by apply field_nonneg.
  set (fs := inode_file_size v inode) in *.
  assert (Hclamp : clamp_max_size fs offset max_size = 2 ^ 64 - (offset - fs)).
  { unfold clamp_max_size.
    rewrite (proj2 (Z.gtb_lt (wrap64 (offset + max_size)) fs)) by lia.
    rewrite wrap64_neg by lia. lia. }
  split; [exact Hclamp|]. split; [lia|]. split; [lia|].
  unfold read_file_content. cbv zeta.
  rewrite (wrap64_small offset), (wrap64_small max_size) by lia.
  fold fs. rewrite Hclamp.
  apply read_file_content_loop_first. lia.
Qed.

Lemma read_file_content_offset_past_eof_witness :
  0 <= 2 ^ 64 - 1 < 2 ^ 64
  /\ inode_file_size Sample.volume Sample.tiny_inode < 6 < 2 ^ 64
  /\ wrap64 (6 + (2 ^ 64 - 1)) > inode_file_size Sample.volume Sample.tiny_inode
  /\ clamp_max_size (inode_file_size Sample.volume Sample.tiny_inode) 6
       (2 ^ 64 - 1)
     = 2 ^ 64 - (6 - inode_file_size Sample.volume Sample.tiny_inode).
Proof.
  assert (H0 : 0 <= 2 ^ 64 - 1 < 2 ^ 64) by (split; vm_compute; congruence).
  assert (H1 : inode_file_size Sample.volume Sample.tiny_inode < 6 < 2 ^ 64)
    by (split; vm_compute; reflexivity).
  assert (H2 : wrap64 (6 + (2 ^ 64 - 1))
               > inode_file_size Sample.volume Sample.tiny_inode)
    by (vm_compute; reflexivity).
  split; [exact H0 | split; [exact H1 | split; [exact H2|]]].
  exact (proj1 (read_file_content_offset_past_eof Sample.sample_host 0
                  Sample.volume Sample.tiny_inode 6 (2 ^ 64 - 1) [] []
                  H0 H1 H2)).
Defined.

(** ** Reads within the file

    The clamp does its work whenever [offset + max_size] fits in 64 bits:
    the call then returns, and never more than [file_size - offset]. *)

Lemma bind_Ret {A B : Type} (c : M A) (k : A -> M B) (log log' : list event)
  (b : B) :
  bind c k log = (Ret b, log') ->
  exists a l, c log = (Ret a, l) /\ k a l = (Ret b, log').
Proof.
  unfold bind. destruct (c log) as [[a| |] l]; intros H; try discriminate.
  exists a, l. split; [reflexivity | exact H].
Qed.

Lemma field4_range (off : nat) (rec : list byte) :
  0 <= field off 4 rec < 2 ^ 32.
Proof.
  unfold field. pose proof (le_uint_range (firstn 4 (skipn off rec))) as H.
  assert (Hlen : (length (firstn 4 (skipn off rec)) <= 4)%nat)
    by (rewrite length_firstn; lia).
  assert (Hpow : 256 ^ Z.of_nat (length (firstn 4 (skipn off rec))) <= 256 ^ 4)
    by (apply Z.pow_le_mono_r; lia).
  change (2 ^ 32) with (256 ^ 4). lia.
Qed.

Lemma sint32_le (r : Z) : -1 <= r < 2 ^ 32 -> sint32 r <= r.
Proof.
  intros Hr. unfold sint32.
  destruct (Z.eq_dec r (-1)) as [->|Hne]; [vm_compute; congruence|].
  rewrite (wrap32_small r) by lia.
  destruct (r <? 2 ^ 31); lia.
Qed.

Lemma clamp_max_size_bound (fs offset max_size : Z) :
  0 <= offset <= fs -> 0 <= max_size -> offset + max_size < 2 ^ 64 ->
  0 <= clamp_max_size fs offset max_size <= fs - offset
  /\ clamp_max_size fs offset max_size <= max_size.
Proof.
  intros Hoff Hms Hsum. unfold clamp_max_size.
  rewrite (wrap64_small (offset + max_size)) by lia.
  destruct (offset + max_size >? fs) eqn:E.
  - apply Z.gtb_lt in E. rewrite wrap64_small by lia. lia.
  - assert (offset + max_size <= fs)
      by (destruct (Z.gtb_spec (offset + max_size) fs); [discriminate | lia]).
    lia.
Qed.

Lemma read_file_block_bound (h : host) (v : volume_t) (inode : list byte)
  (offset max_size : Z) (buffer : list byte) (log log' : list event)
  (r : Z) (tail : list byte) :
  0 <= max_size < 2 ^ 64 ->
  read_file_block h v inode offset max_size buffer log = (Ret (r, tail), log') ->
  -1 <= r <= max_size /\ r < 2 ^ 32.
Proof.
  intros Hm H. unfold read_file_block in H. cbv zeta in H.
  apply bind_Ret in H as (q & l1 & _ & H).
  apply bind_Ret in H as (bn & l2 & _ & H).
  apply bind_Ret in H as (r0 & l3 & _ & H).
  rewrite (wrap64_small max_size) in H by lia.
  match type of H with
  | read_block _ _ _ _ ?size _ _ = _ =>
      destruct (read_block_returns h v bn (wrap32 r0) size buffer l3)
        as (r' & b' & l' & E & Hr & _);
      assert (Hsize : wrap32 size <= max_size)
  end.
  { destruct (wrap32 (block_size v - wrap32 r0) <? max_size) eqn:Elt.
    - apply Z.ltb_lt in Elt.
      pose proof (wrap32_range (block_size v - wrap32 r0)) as Hx.
      pose proof (wrap32_le (wrap32 (block_size v - wrap32 r0))). lia.
    - pose proof (wrap32_range max_size) as Hx.
      pose proof (wrap32_le (wrap32 max_size)).
      pose proof (wrap32_le max_size). lia. }
  rewrite E in H. injection H as -> _ _.
  match type of Hr with
  | _ <= _ <= wrap32 ?size => pose proof (wrap32_range size)
  end. lia.
Qed.

Lemma read_file_content_loop_bound (h : host) (v : volume_t)
  (inode : list byte) (offset max_size : Z) (fuel : nat) :
  0 <= max_size < 2 ^ 32 ->
  forall read_so_far buffer log rv buffer' log',
    0 <= read_so_far <= max_size ->
    read_file_content_loop h fuel v inode offset max_size read_so_far buffer log
    = (Ret (rv, buffer'), log') ->
    rv <= max_size.
Proof.
  intros Hm. induction fuel as [|fuel IH];
    intros rsf buffer log rv buffer' log' Hrsf H; cbn [read_file_content_loop] in H;
    destruct (rsf <? max_size) eqn:Elt;
    try (injection H as <- _ _; lia); try discriminate.
  apply Z.ltb_lt in Elt.
  apply bind_Ret in H as ([r tail] & l1 & Hblock & H).
  apply read_file_block_bound in Hblock as [Hr Hr32]; [|lia].
  pose proof (sint32_le r ltac:(lia)) as Hs.
  cbv zeta in H. destruct (sint32 r <=? 0) eqn:Ele.
  - apply Z.leb_le in Ele. injection H as <- _ _. lia.
  - apply Z.leb_gt in Ele.
    apply IH in H; [exact H|].
    rewrite wrap32_small by lia. lia.
Qed.

Lemma read_ind_block_entry_returns (h : host) (v : volume_t)
  (ind_block_no index : Z) (log : list event) :
  exists b log', read_ind_block_entry h v ind_block_no index log = (Ret b, log').
Proof.
  destruct (read_ind_block_entry_run h v ind_block_no index log)
    as (_ & b & log' & _ & _ & E).
  exists (le_uint b), log'. exact E.
Qed.

Ltac entry_returns :=
  match goal with
  | |- context [read_ind_block_entry ?h ?v ?a ?i ?l] =>
      let E := fresh "E" in
      destruct (read_ind_block_entry_returns h v a i l) as (? & ? & E);
      rewrite E; clear E
  end.

Lemma get_inode_block_no_returns (h : host) (v : volume_t)
  (inode : list byte) (block_idx : Z) (log : list event) :
  geometry_ok v ->
  exists b log', get_inode_block_no h v inode block_idx log = (Ret b, log').
Proof.
  intros (Hbs & Hpp & Hbb).
  assert (HP : block_size v / 4 <> 0).
  { assert (1 <= block_size v / 4) by (apply Z.div_le_lower_bound; lia). lia. }
  apply Z.eqb_neq in HP, Hpp, Hbb.
  unfold get_inode_block_no. cbv zeta.
  repeat match goal with
         | |- context [if ?a <? ?b then _ else _] => destruct (a <? b)
         end;
    unfold udiv, umod; rewrite ?HP, ?Hpp, ?Hbb;
    unfold bind, ret; cbv beta iota;
    repeat entry_returns; eexists _, _; reflexivity.
Qed.

Lemma read_file_block_returns (h : host) (v : volume_t) (inode : list byte)
  (offset max_size : Z) (buffer : list byte) (log : list event) :
  geometry_ok v ->
  exists r tail log',
    read_file_block h v inode offset max_size buffer log
    = (Ret (r, tail), log').
Proof.
  intros Hg. pose proof Hg as (Hbs & _).
  assert (Hz : (block_size v =? 0) = false) by (apply Z.eqb_neq; lia).
  unfold read_file_block, udiv, umod. cbv zeta. rewrite Hz.
  unfold bind at 1. unfold ret at 1. cbv beta iota.
  unfold bind at 1.
  match goal with
  | |- context [get_inode_block_no h v inode ?i log] =>
      destruct (get_inode_block_no_returns h v inode i log Hg)
        as (bn & l1 & ->)
  end.
  unfold bind at 1. unfold ret at 1. cbv beta iota.
  match goal with
  | |- context [read_block h v ?a ?b ?c ?d ?l] =>
      destruct (read_block_returns h v a b c d l) as (r & t & l2 & E & _)
  end.
  exists r, t, l2. exact E.
Qed.

Lemma read_file_content_loop_returns (h : host) (v : volume_t)
  (inode : list byte) (offset max_size : Z) (fuel : nat) :
  geometry_ok v ->
  0 <= max_size < 2 ^ 32 ->
  forall read_so_far buffer log,
    0 <= read_so_far <= max_size ->
    (Z.to_nat (max_size - read_so_far) <= fuel)%nat ->
    exists rv buffer' log',
      read_file_content_loop h fuel v inode offset max_size read_so_far
        buffer log
      = (Ret (rv, buffer'), log').
Proof.
  intros Hg Hm. induction fuel as [|fuel IH];
    intros rsf buffer log Hrsf Hfuel; cbn [read_file_content_loop];
    destruct (rsf <? max_size) eqn:Elt;
    try (eexists _, _, _; reflexivity).
  - apply Z.ltb_lt in Elt. lia.
  - apply Z.ltb_lt in Elt.
    destruct (read_file_block_returns h v inode (offset + rsf)
                (max_size - rsf) (skipn (Z.to_nat rsf) buffer) log Hg)
      as (r & tail & l1 & E).
    assert (Hrem : 0 <= max_size - rsf < 2 ^ 64) by lia.
    pose proof (read_file_block_bound _ _ _ _ _ _ _ _ _ _ Hrem E)
      as [Hr Hr32].
    pose proof (sint32_le r ltac:(lia)) as Hs.
    unfold bind. rewrite E. cbv zeta.
    destruct (sint32 r <=? 0) eqn:Ele; [eexists _, _, _; reflexivity|].
    apply Z.leb_gt in Ele. apply IH.
    + rewrite wrap32_small by lia. lia.
    + rewrite wrap32_small by lia. lia.
Qed.

(** X19: within the file and without overflow of [offset + max_size],
    on a geometry whose divisions are defined, [read_file_content] returns
    once it has had [file_size - offset] iterations, and what it returns is
    at most [file_size - offset] and at most [max_size]. *)
Lemma read_file_content_within_file (h : host) (fuel : nat) (v : volume_t)
  (inode : list byte) (offset max_size : Z) (buffer : list byte)
  (log : list event) :
  geometry_ok v ->
  0 <= offset <= inode_file_size v inode ->
  0 <= max_size ->
  offset + max_size < 2 ^ 64 ->
  (Z.to_nat (inode_file_size v inode - offset) <= fuel)%nat ->
  exists rv buffer' log',
    read_file_content h fuel v inode offset max_size buffer log
    = (Ret (rv, buffer'), log')
    /\ rv <= inode_file_size v inode - offset
    /\ rv <= max_size.
Proof.
  intros Hg Hoff Hms Hsum Hfuel.
  pose proof (field4_range 4 inode) as Hfs.
  change (field 4 4 inode) with (inode_file_size v inode) in Hfs.
  destruct (clamp_max_size_bound (inode_file_size v inode) offset max_size
              Hoff Hms Hsum) as [Hc1 Hc2].
  unfold read_file_content. cbv zeta.
  rewrite (wrap64_small offset), (wrap64_small max_size) by lia.
  set (m := clamp_max_size (inode_file_size v inode) offset max_size) in *.
  destruct (read_file_content_loop_returns h v inode offset m fuel Hg
              ltac:(lia) 0 buffer log ltac:(lia) ltac:(lia))
    as (rv & b & l & E).
  exists rv, b, l. split; [exact E|].
  pose proof (read_file_content_loop_bound h v inode offset m fuel
                ltac:(lia) 0 buffer log rv b l ltac:(lia) E).
  lia.
Qed.

Example sample_geometry_ok : geometry_ok Sample.volume.
Proof. repeat split; vm_compute; congruence. Qed.

(** X20: at the end of the file, for a positive length that does not
    overflow the clamp test, [read_file_content] returns 0 with the buffer
    untouched and without any read of the storage, whatever the volume. *)
Lemma read_file_content_at_eof (h : host) (fuel : nat) (v : volume_t)
  (inode : list byte) (max_size : Z) (buffer : list byte) (log : list event) :
  0 < max_size ->
  inode_file_size v inode + max_size < 2 ^ 64 ->
  read_file_content h fuel v inode (inode_file_size v inode) max_size buffer
    log
  = (Ret (0, buffer), log).
Proof.
  intros Hms Hsum.
  pose proof (field4_range 4 inode) as Hfs.
  change (field 4 4 inode) with (inode_file_size v inode) in Hfs.
  unfold read_file_content, clamp_max_size. cbv zeta.
  rewrite (wrap64_small (inode_file_size v inode)),
    (wrap64_small max_size) by lia.
  rewrite (wrap64_small (inode_file_size v inode + max_size)) by lia.
  rewrite (proj2 (Z.gtb_lt _ _)) by lia.
  rewrite Z.sub_diag. change (wrap64 0) with 0.
  destruct fuel; reflexivity.
Qed.

(** * Further properties of the interpreter *)

(** ** The tiers of the addressing tree *)

Lemma read_ind_block_entry_log (h : host) (v : volume_t)
  (ind_block_no index : Z) (log : list event) :
  exists b r,
    read_ind_block_entry h v ind_block_no index log
    = (Ret b,
       log ++ [EvPread (fd v) 4
                 (wrap32 (wrap32 (block_size v * wrap32 ind_block_no)
                          + wrap32 (wrap32 index * 4))) r]).
Proof.
  unfold read_ind_block_entry, read_block. cbv zeta.
  rewrite (wrap32_small (wrap32 ind_block_no)) by apply wrap32_range.
  change (wrap32 4) with 4.
  destruct (pread_returns h (fd v) (uninit h 4) 4
              (wrap32 (wrap32 (block_size v * wrap32 ind_block_no)
                       + wrap32 (wrap32 index * 4))) log)
    as (r & b & E & _).
  unfold bind at 1. rewrite E.
  assert (Hguard : (le_uint b <? 0) = false)
    by (apply Z.ltb_ge, le_uint_nonneg).
  rewrite Hguard. exists (le_uint b), r. reflexivity.
Qed.

Ltac entry_log :=
  match goal with
  | |- context [read_ind_block_entry ?h ?v ?a ?i ?l] =>
      let E := fresh "E" in
      destruct (read_ind_block_entry_log h v a i l) as (? & ? & E);
      rewrite E; clear E
  end.

(** The 32-bit bounds of the resolver are the exact tier bounds when the
    block size is at most 4096. *)
Lemma small_blocks_bounds (v : volume_t) :
  small_blocks v ->
  let P := block_size v / 4 in
  1 <= P <= 1024
  /\ wrap32 (P + 12) = 12 + P
  /\ wrap32 (12 + wrap32 (wrap32 (P + 1) * P)) = 12 + P + P ^ 2
  /\ wrap32 (wrap32 (wrap32 (wrap32 (wrap32 (P + 1) * P) + 1) * P) + 12)
     = 12 + P + P ^ 2 + P ^ 3
  /\ wrap32 (P * P) = P ^ 2
  /\ wrap32 (block_size v * block_size v) = block_size v * block_size v.
Proof.
  intros [Hlo Hhi]. cbv zeta. set (P := block_size v / 4).
  assert (HP : 1 <= P <= 1024).
  { split; [apply Z.div_le_lower_bound; lia|].
    apply Z.div_le_upper_bound; lia. }
  assert (Hsq : P ^ 2 = P * P) by ring.
  assert (Hcb : P ^ 3 = P * P * P) by ring.
  assert (Hb2 : P * P <= 1048576) by nia.
  assert (Hb3 : P * P * P <= 1073741824) by nia.
  split; [exact HP|].
  rewrite (wrap32_small (P + 1)) by lia.
  rewrite (wrap32_small ((P + 1) * P)) by nia.
  rewrite (wrap32_small ((P + 1) * P + 1)) by nia.
  rewrite (wrap32_small (((P + 1) * P + 1) * P)) by nia.
  rewrite (wrap32_small (((P + 1) * P + 1) * P + 12)) by nia.
  rewrite (wrap32_small (12 + (P + 1) * P)) by nia.
  rewrite (wrap32_small (P + 12)) by lia.
  rewrite (wrap32_small (P * P)) by nia.
  rewrite (wrap32_small (block_size v * block_size v)) by nia.
  repeat split; lia.
Qed.

(** X1: for block sizes up to 4096 and every 64-bit logical index, the
    resolver returns after reading exactly as many 4-byte indirect-block
    entries as the tier of the index asks for: none for a direct slot, one,
    two and three for the single-, double- and triple-indirect tiers, and
    none beyond them. *)
Theorem get_inode_block_no_read_count (h : host) (v : volume_t)
  (inode : list byte) (block_idx : Z) (log : list event) :
  small_blocks v ->
  0 <= block_idx < 2 ^ 64 ->
  exists b reads,
    get_inode_block_no h v inode block_idx log = (Ret b, log ++ reads)
    /\ length reads = tier_reads (block_size v / 4) block_idx
    /\ storage_reads reads = reads.
Proof.
  intros Hsmall Hidx.
  destruct (small_blocks_bounds v Hsmall) as (HP & E1 & E2 & E3 & E4 & E5).
  cbv zeta in *. unfold get_inode_block_no, tier_reads. cbv zeta.
  rewrite E1, E2, E3, E4, E5. rewrite (wrap64_small block_idx) by exact Hidx.
  set (P := block_size v / 4) in *.
  assert (HP0 : (P =? 0) = false) by (apply Z.eqb_neq; lia).
  assert (HPP : (P ^ 2 =? 0) = false) by (apply Z.eqb_neq; nia).
  assert (Hbb : (block_size v * block_size v =? 0) = false)
    by (apply Z.eqb_neq; destruct Hsmall; nia).
  destruct (block_idx <? 12);
    [exists (i_block inode block_idx), []; rewrite app_nil_r;
     repeat split|].
  destruct (block_idx <? 12 + P);
    [entry_log; eexists _, _; repeat split|].
  destruct (block_idx <? 12 + P + P ^ 2).
  { unfold udiv, umod. rewrite HP0. unfold bind, ret. cbv beta iota.
    repeat entry_log. eexists _, _.
    split; [rewrite <- !app_assoc; reflexivity | split; reflexivity]. }
  destruct (block_idx <? 12 + P + P ^ 2 + P ^ 3).
  { unfold udiv, umod. rewrite HPP, HP0, Hbb. unfold bind, ret.
    cbv beta iota. repeat entry_log. eexists _, _.
    split; [rewrite <- !app_assoc; reflexivity | split; reflexivity]. }
  exists EXT2_INVALID_BLOCK_NUMBER, []. rewrite app_nil_r. repeat split.
Qed.

Lemma get_inode_block_no_read_count_witness :
  small_blocks Sample.volume
  /\ 0 <= 500 < 2 ^ 64
  /\ exists b reads,
       get_inode_block_no Sample.sample_host Sample.volume Sample.big_inode
         500 []
       = (Ret b, [] ++ reads)
       /\ length reads = tier_reads (block_size Sample.volume / 4) 500
       /\ storage_reads reads = reads.
Proof.
  assert (Hs : small_blocks Sample.volume) by (split; vm_compute; congruence).
  assert (Hi : 0 <= 500 < 2 ^ 64) by (split; vm_compute; congruence).
  split; [exact Hs | split; [exact Hi|]].
  exact (get_inode_block_no_read_count Sample.sample_host Sample.volume
           Sample.big_inode 500 [] Hs Hi).
Defined.

(** X2: in the triple-indirect tier the middle index is divided by
    [block_size * block_size], so for block sizes up to 4096 the second
    lookup always reads entry 0 of the block the first lookup named; the
    first lookup uses [(index - base) / P^2] and the last
    [(index - base) mod P^2 mod P], with [base = 12 + P + P^2]. *)
Theorem get_inode_block_no_triple_middle_entry (h : host) (v : volume_t)
  (inode : list byte) (block_idx : Z) (log : list event) :
  small_blocks v ->
  (let P := block_size v / 4 in
   12 + P + P ^ 2 <= block_idx < 12 + P + P ^ 2 + P ^ 3) ->
  let P := block_size v / 4 in
  let rel := block_idx - (12 + P + P ^ 2) in
  get_inode_block_no h v inode block_idx log
  = (indBlockNo2 <- read_ind_block_entry h v (i_block_3ind inode)
                      (rel / P ^ 2) ;;
     indBlockNo1 <- read_ind_block_entry h v indBlockNo2 0 ;;
     read_ind_block_entry h v indBlockNo1 (rel mod P ^ 2 mod P))%ext2 log.
Proof.
  intros Hsmall Htier.
  destruct (small_blocks_bounds v Hsmall) as (HP & E1 & E2 & E3 & E4 & E5).
  cbv zeta in *. unfold get_inode_block_no. cbv zeta.
  rewrite E1, E2, E3, E4, E5.
  set (P := block_size v / 4) in *.
  assert (Hsq : P ^ 2 = P * P) by ring.
  assert (Hcb : P ^ 3 = P * P * P) by ring.
  assert (Hidx : 0 <= block_idx < 2 ^ 64) by nia.
  rewrite (wrap64_small block_idx) by exact Hidx.
  rewrite (proj2 (Z.ltb_ge block_idx 12)) by nia.
  rewrite (proj2 (Z.ltb_ge block_idx (12 + P))) by nia.
  rewrite (proj2 (Z.ltb_ge block_idx (12 + P + P ^ 2))) by lia.
  rewrite (proj2 (Z.ltb_lt block_idx (12 + P + P ^ 2 + P ^ 3))) by lia.
  set (rel := block_idx - (12 + P + P ^ 2)).
  rewrite (wrap64_small rel) by (unfold rel; nia).
  assert (HP0 : (P =? 0) = false) by (apply Z.eqb_neq; lia).
  assert (HPP : (P ^ 2 =? 0) = false) by (apply Z.eqb_neq; nia).
  assert (Hbb : (block_size v * block_size v =? 0) = false)
    by (apply Z.eqb_neq; destruct Hsmall; nia).
  assert (Hr2 : 0 <= rel mod P ^ 2 < P ^ 2)
    by (apply Z.mod_pos_bound; nia).
  assert (Hbs : 4 * P <= block_size v).
  { unfold P. pose proof (Z.mul_div_le (block_size v) 4 ltac:(lia)). lia. }
  assert (Hmid : rel mod P ^ 2 / (block_size v * block_size v) = 0)
    by (apply Z.div_small; nia).
  unfold udiv, umod. rewrite HPP, HP0, Hbb. unfold bind, ret. cbv beta iota.
  rewrite Hmid. rewrite (wrap32_small (rel mod P ^ 2)) by nia.
  reflexivity.
Qed.

Lemma get_inode_block_no_triple_middle_entry_witness :
  small_blocks Sample.volume
  /\ (let P := block_size Sample.volume / 4 in
      12 + P + P ^ 2 <= 70000 < 12 + P + P ^ 2 + P ^ 3)
  /\ get_inode_block_no Sample.sample_host Sample.volume Sample.big_inode
       70000 []
     = (indBlockNo2 <- read_ind_block_entry Sample.sample_host Sample.volume
                         (i_block_3ind Sample.big_inode)
                         ((70000 - (12 + 256 + 256 ^ 2)) / 256 ^ 2) ;;
        indBlockNo1 <- read_ind_block_entry Sample.sample_host Sample.volume
                         indBlockNo2 0 ;;
        read_ind_block_entry Sample.sample_host Sample.volume indBlockNo1
          ((70000 - (12 + 256 + 256 ^ 2)) mod 256 ^ 2 mod 256))%ext2 [].
Proof.
  assert (Hs : small_blocks Sample.volume) by (split; vm_compute; congruence).
  assert (Ht : let P := block_size Sample.volume / 4 in
               12 + P + P ^ 2 <= 70000 < 12 + P + P ^ 2 + P ^ 3)
    by (split; vm_compute; congruence).
  split; [exact Hs | split; [exact Ht|]].
  exact (get_inode_block_no_triple_middle_entry Sample.sample_host
           Sample.volume Sample.big_inode 70000 [] Hs Ht).
Defined.

(** X3: in the double-indirect tier the resolver agrees with the lookup
    the format prescribes on every index whose inner entry index
    [(index - 12 - P) mod P] is below [P - 24]: the [+ 12] of the outer
    index expression then does not change the quotient. *)
Theorem get_inode_block_no_double_indirect_agrees (h : host) (v : volume_t)
  (inode : list byte) (block_idx : Z) (log : list event) :
  small_blocks v ->
  (let P := block_size v / 4 in
   12 + P <= block_idx < 12 + P + P ^ 2
   /\ (block_idx - 12 - P) mod P < P - 24) ->
  get_inode_block_no h v inode block_idx log
  = double_indirect_spec h v inode block_idx log.
Proof.
  intros Hsmall Htier.
  destruct (small_blocks_bounds v Hsmall) as (HP & E1 & E2 & E3 & E4 & E5).
  cbv zeta in *. unfold get_inode_block_no, double_indirect_spec. cbv zeta.
  rewrite E1, E2.
  set (P := block_size v / 4) in *.
  destruct Htier as [Htier Hinner].
  assert (Hsq : P ^ 2 = P * P) by ring.
  assert (Hidx : 0 <= block_idx < 2 ^ 64) by nia.
  rewrite (wrap64_small block_idx) by exact Hidx.
  rewrite (proj2 (Z.ltb_ge block_idx 12)) by nia.
  rewrite (proj2 (Z.ltb_ge block_idx (12 + P))) by lia.
  rewrite (proj2 (Z.ltb_lt block_idx (12 + P + P ^ 2))) by lia.
  rewrite (wrap64_small (block_idx - P)) by nia.
  rewrite (wrap64_small (block_idx - P + 12)) by nia.
  rewrite (wrap64_small (block_idx - (12 + P))) by nia.
  assert (HP0 : (P =? 0) = false) by (apply Z.eqb_neq; lia).
  unfold udiv, umod. rewrite HP0. unfold bind, ret. cbv beta iota.
  set (x := block_idx - 12 - P) in *.
  assert (Hx : 0 <= x) by (unfold x; lia).
  assert (Hdm : x = P * (x / P) + x mod P) by (apply Z.div_mod; lia).
  assert (Hm : 0 <= x mod P < P) by (apply Z.mod_pos_bound; lia).
  assert (Houter : (block_idx - P + 12) / P = x / P).
  { symmetry. apply (Z.div_unique_pos _ _ _ (x mod P + 24)); [lia|].
    unfold x in *. lia. }
  rewrite Houter.
  replace (block_idx - (12 + P)) with x by (unfold x; lia).
  reflexivity.
Qed.

Lemma get_inode_block_no_double_indirect_agrees_witness :
  small_blocks Sample.volume
  /\ (let P := block_size Sample.volume / 4 in
      12 + P <= 499 < 12 + P + P ^ 2 /\ (499 - 12 - P) mod P < P - 24)
  /\ get_inode_block_no Sample.sample_host Sample.volume Sample.big_inode
       499 []
     = double_indirect_spec Sample.sample_host Sample.volume Sample.big_inode
         499 [].
Proof.
  assert (Hs : small_blocks Sample.volume) by (split; vm_compute; congruence).
  assert (Ht : let P := block_size Sample.volume / 4 in
               12 + P <= 499 < 12 + P + P ^ 2
               /\ (499 - 12 - P) mod P < P - 24)
    by (repeat split; vm_compute; congruence).
  split; [exact Hs | split; [exact Ht|]].
  exact (get_inode_block_no_double_indirect_agrees Sample.sample_host
           Sample.volume Sample.big_inode 499 [] Hs Ht).
Defined.

(** ** Single-block reads *)

Lemma sint32_small (x : Z) : 0 <= x < 2 ^ 31 -> sint32 x = x.
Proof.
  intros Hx. unfold sint32. rewrite wrap32_small by lia.
  rewrite (proj2 (Z.ltb_lt x (2 ^ 31))) by lia. reflexivity.
Qed.


Lemma get_inode_block_no_direct (h : host) (v : volume_t) (inode : list byte)
  (block_idx : Z) (log : list event) :
  0 <= block_idx < 12 ->
  get_inode_block_no h v inode block_idx log
  = (Ret (i_block inode block_idx), log).
Proof.
  intros Hidx. unfold get_inode_block_no. cbv zeta.
  rewrite (wrap64_small block_idx) by lia.
  rewrite (proj2 (Z.ltb_lt block_idx 12)) by lia. reflexivity.
Qed.

(** X4: a single-block read never crosses a block boundary.  On a volume
    with a non-zero block size, [read_file_block] is the resolution of the
    logical block [offset / block_size] followed by one [read_block] of the
    block it names, at the in-block offset [offset mod block_size], for
    [min (max_size, block_size - offset mod block_size)] bytes: the in-block
    offset plus the length never exceeds the block size. *)
Theorem read_file_block_within_block (h : host) (v : volume_t)
  (inode : list byte) (offset max_size : Z) (buffer : list byte)
  (log : list event) :
  0 < block_size v < 2 ^ 32 ->
  0 <= offset < 2 ^ 64 ->
  0 <= max_size < 2 ^ 64 ->
  let in_block := offset mod block_size v in
  let span := Z.min max_size (block_size v - in_block) in
  read_file_block h v inode offset max_size buffer log
  = (blockNo <- get_inode_block_no h v inode
                  (wrap64 (sint32 (offset / block_size v))) ;;
     read_block h v blockNo in_block span buffer)%ext2 log
  /\ 0 <= in_block
  /\ 0 <= span <= max_size
  /\ in_block + span <= block_size v.
Proof.
  intros Hbs Hoff Hmax. cbv zeta.
  assert (Hz : (block_size v =? 0) = false) by (apply Z.eqb_neq; lia).
  pose proof (Z.mod_pos_bound offset (block_size v) ltac:(lia)) as Hm.
  split; [|lia].
  unfold read_file_block, udiv, umod. cbv zeta. rewrite Hz.
  rewrite (wrap64_small offset), (wrap64_small max_size) by lia.
  unfold bind at 1. unfold ret at 1. cbv beta iota.
  unfold bind at 1. unfold bind at 2.
  destruct (get_inode_block_no h v inode
              (wrap64 (sint32 (offset / block_size v))) log)
    as [[bn| |] l]; try reflexivity.
  unfold bind at 1. unfold ret at 1. cbv beta iota.
  rewrite (wrap32_small (offset mod block_size v)) by lia.
  rewrite (wrap32_small (block_size v - offset mod block_size v)) by lia.
  destruct (Z.ltb_spec (block_size v - offset mod block_size v) max_size).
  - rewrite Z.min_r by lia. reflexivity.
  - rewrite Z.min_l by lia. unfold read_block. cbv zeta.
    rewrite (wrap32_small (wrap32 max_size)) by apply wrap32_range.
    reflexivity.
Qed.

Lemma read_file_block_within_block_witness :
  0 < block_size Sample.volume < 2 ^ 32
  /\ 0 <= 1000 < 2 ^ 64
  /\ 0 <= 100 < 2 ^ 64
  /\ read_file_block Sample.sample_host Sample.volume Sample.hello_inode
       1000 100 (Sample.fill x00 100) []
     = (blockNo <- get_inode_block_no Sample.sample_host Sample.volume
                     Sample.hello_inode
                     (wrap64 (sint32 (1000 / block_size Sample.volume))) ;;
        read_block Sample.sample_host Sample.volume blockNo
          (1000 mod block_size Sample.volume)
          (Z.min 100 (block_size Sample.volume
                      - 1000 mod block_size Sample.volume))
          (Sample.fill x00 100))%ext2 [].
Proof.
  assert (Hb : 0 < block_size Sample.volume < 2 ^ 32)
    by (split; vm_compute; congruence).
  assert (Ho : 0 <= 1000 < 2 ^ 64) by (split; vm_compute; congruence).
  assert (Hm : 0 <= 100 < 2 ^ 64) by (split; vm_compute; congruence).
  split; [exact Hb | split; [exact Ho | split; [exact Hm|]]].
  exact (proj1 (read_file_block_within_block Sample.sample_host Sample.volume
                  Sample.hello_inode 1000 100 (Sample.fill x00 100) []
                  Hb Ho Hm)).
Defined.

Lemma read_file_block_direct_eq (h : host) (v : volume_t) (inode : list byte)
  (offset max_size : Z) (buffer : list byte) (log : list event) :
  0 < block_size v < 2 ^ 32 ->
  0 <= offset < 12 * block_size v ->
  0 <= max_size < 2 ^ 64 ->
  read_file_block h v inode offset max_size buffer log
  = read_block h v (i_block inode (offset / block_size v))
      (offset mod block_size v)
      (Z.min max_size (block_size v - offset mod block_size v)) buffer log.
Proof.
  intros Hbs Hoff Hmax.
  assert (Hz : (block_size v =? 0) = false) by (apply Z.eqb_neq; lia).
  assert (Hq : 0 <= offset / block_size v < 12).
  { split; [apply Z.div_pos; lia|]. apply Z.div_lt_upper_bound; lia. }
  pose proof (Z.mod_pos_bound offset (block_size v) ltac:(lia)) as Hm.
  unfold read_file_block, udiv, umod. cbv zeta. rewrite Hz.
  rewrite (wrap64_small offset), (wrap64_small max_size) by lia.
  unfold bind at 1. unfold ret at 1. cbv beta iota.
  rewrite (sint32_small (offset / block_size v)) by lia.
  rewrite (wrap64_small (offset / block_size v)) by lia.
  unfold bind at 1. rewrite get_inode_block_no_direct by exact Hq.
  unfold bind at 1. unfold ret at 1. cbv beta iota.
  rewrite (wrap32_small (offset mod block_size v)) by lia.
  rewrite (wrap32_small (block_size v - offset mod block_size v)) by lia.
  destruct (Z.ltb_spec (block_size v - offset mod block_size v) max_size).
  - rewrite Z.min_r by lia. reflexivity.
  - rewrite Z.min_l by lia. unfold read_block. cbv zeta.
    rewrite (wrap32_small (wrap32 max_size)) by apply wrap32_range.
    reflexivity.
Qed.

(** X5: within the twelve direct slots a single-block read is one
    [read_block] of the slot's block, at the in-block offset, for the
    clamped length; no other storage read is made. *)
Theorem read_file_block_direct (h : host) (v : volume_t) (inode : list byte)
  (offset max_size : Z) (buffer : list byte) (log : list event) :
  0 < block_size v < 2 ^ 32 ->
  0 <= offset < 12 * block_size v ->
  0 <= max_size < 2 ^ 64 ->
  read_file_block h v inode offset max_size buffer log
  = read_block h v (i_block inode (offset / block_size v))
      (offset mod block_size v)
      (Z.min max_size (block_size v - offset mod block_size v)) buffer log.
Proof.
  exact (read_file_block_direct_eq h v inode offset max_size buffer log).
Qed.


Lemma read_file_block_direct_witness :
  0 < block_size Sample.volume < 2 ^ 32
  /\ 0 <= 1030 < 12 * block_size Sample.volume
  /\ 0 <= 8 < 2 ^ 64
  /\ read_file_block Sample.sample_host Sample.volume Sample.hello_inode
       1030 8 (Sample.fill x00 8) []
     = read_block Sample.sample_host Sample.volume
         (i_block Sample.hello_inode (1030 / block_size Sample.volume))
         (1030 mod block_size Sample.volume)
         (Z.min 8 (block_size Sample.volume
                   - 1030 mod block_size Sample.volume))
         (Sample.fill x00 8) [].
Proof.
  assert (Hb : 0 < block_size Sample.volume < 2 ^ 32)
    by (split; vm_compute; congruence).
  assert (Ho : 0 <= 1030 < 12 * block_size Sample.volume)
    by (split; vm_compute; congruence).
  assert (Hm : 0 <= 8 < 2 ^ 64) by (split; vm_compute; congruence).
  split; [exact Hb | split; [exact Ho | split; [exact Hm|]]].
  exact (read_file_block_direct Sample.sample_host Sample.volume
           Sample.hello_inode 1030 8 (Sample.fill x00 8) [] Hb Ho Hm).
Defined.

(** ** Block reads *)

Lemma pread_full (h : host) (fd : Z) (data buf : list byte) (count off : Z)
  (log : list event) :
  h_file h fd = Some data ->
  0 <= off -> 0 <= count ->
  off + count <= Z.of_nat (length data) ->
  pread h fd buf count off log
  = (Ret (count,
          firstn (Z.to_nat count) (skipn (Z.to_nat off) data)
          ++ skipn (Z.to_nat count) buf),
     log ++ [EvPread fd count off count]).
Proof.
  intros Hfile Hoff Hcount Hfit. unfold pread. rewrite Hfile.
  rewrite (proj2 (Z.ltb_ge off 0)) by lia.
  rewrite Z.max_r, Z.min_l, Z.min_l by lia.
  assert (Hlen : length (firstn (Z.to_nat count) (skipn (Z.to_nat off) data))
                 = Z.to_nat count)
    by (rewrite length_firstn, length_skipn; lia).
  rewrite Hlen, Z2Nat.id by lia. reflexivity.
Qed.

Lemma read_block_content_eq (h : host) (v : volume_t) (data : list byte)
  (block_no offset size : Z) (buffer : list byte) (log : list event) :
  h_file h (fd v) = Some data ->
  0 <= block_size v ->
  0 <= block_no -> 0 <= offset -> 0 <= size < 2 ^ 32 ->
  block_size v * block_no + offset < 2 ^ 32 ->
  block_size v * block_no + offset + size <= Z.of_nat (length data) ->
  let pos := block_size v * block_no + offset in
  read_block h v block_no offset size buffer log
  = (Ret (size,
          firstn (Z.to_nat size) (skipn (Z.to_nat pos) data)
          ++ skipn (Z.to_nat size) buffer),
     log ++ [EvPread (fd v) size pos size]).
Proof.
  intros Hfile Hbs Hb Ho Hs Hpos Hfit. cbv zeta.
  unfold read_block. cbv zeta.
  destruct (Z.eq_dec (block_size v) 0) as [Hz|Hnz].
  - rewrite Hz in *. rewrite !Z.mul_0_l in *.
    change (wrap32 0) with 0. rewrite !Z.add_0_l in *.
    rewrite (wrap32_small offset), (wrap32_small size) by lia.
    rewrite (wrap32_small offset) by lia.
    apply pread_full; try assumption; lia.
  - assert (Hbn : block_no < 2 ^ 32) by nia.
    rewrite (wrap32_small block_no), (wrap32_small offset),
      (wrap32_small size) by lia.
    rewrite (wrap32_small (block_size v * block_no)) by nia.
    rewrite (wrap32_small (block_size v * block_no + offset)) by nia.
    apply pread_full; try assumption; nia.
Qed.

(** X6: the block reader.  When block [block_no], at in-block offset
    [offset], lies below 4 GiB and the storage holds [size] bytes from
    there, [read_block] issues one read at byte
    [block_size * block_no + offset], returns [size], and the head of the
    buffer holds exactly those bytes of the storage; the rest of the buffer
    is untouched. *)
Theorem read_block_content (h : host) (v : volume_t) (data : list byte)
  (block_no offset size : Z) (buffer : list byte) (log : list event) :
  h_file h (fd v) = Some data ->
  0 <= block_size v ->
  0 <= block_no -> 0 <= offset -> 0 <= size < 2 ^ 32 ->
  block_size v * block_no + offset < 2 ^ 32 ->
  block_size v * block_no + offset + size <= Z.of_nat (length data) ->
  let pos := block_size v * block_no + offset in
  read_block h v block_no offset size buffer log
  = (Ret (size,
          firstn (Z.to_nat size) (skipn (Z.to_nat pos) data)
          ++ skipn (Z.to_nat size) buffer),
     log ++ [EvPread (fd v) size pos size]).
Proof.
  exact (read_block_content_eq h v data block_no offset size buffer log).
Qed.


Lemma read_block_content_witness :
  h_file Sample.sample_host (fd Sample.volume) = Some Sample.image
  /\ read_block Sample.sample_host Sample.volume 9 4 4 (Sample.fill x00 6) []
     = (Ret (4,
             firstn (Z.to_nat 4)
               (skipn (Z.to_nat (block_size Sample.volume * 9 + 4))
                  Sample.image)
             ++ skipn (Z.to_nat 4) (Sample.fill x00 6)),
        [] ++ [EvPread (fd Sample.volume) 4
                 (block_size Sample.volume * 9 + 4) 4]).
Proof.
  assert (Hf : h_file Sample.sample_host (fd Sample.volume)
               = Some Sample.image) by reflexivity.
  split; [exact Hf|].
  apply (read_block_content Sample.sample_host Sample.volume Sample.image
           9 4 4 (Sample.fill x00 6) [] Hf);
    vm_compute; try split; congruence.
Defined.

(** ** The bridge read within the first block *)



(** ** Directory iteration *)

Lemma bytes_eqb_eq (a b : list byte) : bytes_eqb a b = true -> a = b.
Proof.
  revert b. induction a as [|x a IH]; intros [|y b] H; cbn in H;
    try discriminate; [reflexivity|].
  apply andb_true_iff in H as [Hxy Hab].
  apply Byte.byte_dec_bl in Hxy. f_equal; [exact Hxy | apply IH, Hab].
Qed.

Lemma visit_run (f : list byte -> Z -> Z) (entry : list byte)
  (log : list event) :
  visit f entry log
  = (Ret (f (de_name entry) (de_inode_no entry)),
     log ++ [EvVisit (de_name entry) (de_inode_no entry)]).
Proof. reflexivity. Qed.

Lemma follow_directory_entries_loop_result (h : host) (v : volume_t)
  (inode : list byte) (buffer : option (list byte))
  (f : list byte -> Z -> Z) (fuel : nat) :
  forall offset newDirEntry log n out log',
    follow_directory_entries_loop h fuel v inode buffer f offset newDirEntry
      log
    = (Ret (n, out), log') ->
    iteration_result f buffer n out log'.
Proof.
  induction fuel as [|fuel IH]; intros offset e log n out log' H;
    cbn [follow_directory_entries_loop] in H;
    destruct (wrap32 offset <? i_size inode);
    try discriminate;
    try (injection H as <- <- _; left; split; reflexivity).
  apply bind_Ret in H as ([r1 e1] & l1 & _ & H).
  apply bind_Ret in H as ([r2 e2] & l2 & _ & H).
  apply bind_Ret in H as (r & l3 & Hvisit & H).
  rewrite visit_run in Hvisit. injection Hvisit as <- <-.
  destruct (negb (f (de_name e2) (de_inode_no e2) =? 0)) eqn:Hstop;
    destruct (is_non_null buffer) eqn:Hbuf; cbn [andb] in H;
    try (apply IH in H; exact H).
  injection H as <- _ <-. right. split; [exact Hbuf|].
  exists l2, (de_name e2). split; [reflexivity|].
  apply negb_true_iff, Z.eqb_neq in Hstop. exact Hstop.
Qed.

Lemma follow_directory_entries_result (h : host) (v : volume_t)
  (inode : list byte) (buffer : option (list byte))
  (f : list byte -> Z -> Z) (fuel : nat) (log log' : list event) (n : Z)
  (out : option (list byte)) :
  follow_directory_entries h fuel v inode buffer f log = (Ret (n, out), log') ->
  iteration_result f buffer n out log'.
Proof.
  intros H. unfold follow_directory_entries in H. cbv zeta in H.
  apply bind_Ret in H as ([r1 fs] & l1 & _ & H).
  apply bind_Ret in H as ([r2 e] & l2 & _ & H).
  apply bind_Ret in H as (r & l3 & Hvisit & H).
  rewrite visit_run in Hvisit. injection Hvisit as <- <-.
  destruct (negb (f (de_name e) (de_inode_no e) =? 0)) eqn:Hstop;
    destruct (is_non_null buffer) eqn:Hbuf; cbn [andb] in H;
    try (apply follow_directory_entries_loop_result in H; exact H).
  injection H as <- _ <-. right. split; [exact Hbuf|].
  exists l2, (de_name e). split; [reflexivity|].
  apply negb_true_iff, Z.eqb_neq in Hstop. exact Hstop.
Qed.

(** X8: with a NULL entry buffer the iteration never reports an entry:
    whatever the directory and the visitor, a call that returns returns 0. *)
Theorem follow_directory_entries_null_returns_zero (h : host) (v : volume_t)
  (inode : list byte) (f : list byte -> Z -> Z) (fuel : nat)
  (log log' : list event) (n : Z) (out : option (list byte)) :
  follow_directory_entries h fuel v inode None f log = (Ret (n, out), log') ->
  n = 0 /\ out = None.
Proof.
  intros H. apply follow_directory_entries_result in H.
  destruct H as [H | [Hnull _]]; [exact H | discriminate Hnull].
Qed.

Lemma follow_directory_entries_null_returns_zero_witness :
  exists log',
    follow_directory_entries Sample.sample_host 16 Sample.volume
      Sample.root_inode None (fun _ _ => 1) []
    = (Ret (0, None), log')
    /\ (0 = 0 /\ @None (list byte) = None).
Proof.
  eexists. split; [vm_compute; reflexivity|].
  eapply (follow_directory_entries_null_returns_zero Sample.sample_host
            Sample.volume Sample.root_inode (fun _ _ => 1) 16 []).
  vm_compute. reflexivity.
Defined.

(** X9: a non-zero result of the iteration is the inode number of the
    entry visited last, and the visitor returned non-zero for that entry;
    otherwise the result is 0 and the caller's buffer is as it was. *)
Theorem follow_directory_entries_reports_last_visit (h : host) (v : volume_t)
  (inode : list byte) (buffer : option (list byte))
  (f : list byte -> Z -> Z) (fuel : nat) (log log' : list event) (n : Z)
  (out : option (list byte)) :
  follow_directory_entries h fuel v inode buffer f log = (Ret (n, out), log') ->
  (n = 0 /\ out = buffer)
  \/ exists l name, log' = l ++ [EvVisit name n] /\ f name n <> 0.
Proof.
  intros H. apply follow_directory_entries_result in H.
  destruct H as [H | [_ H]]; [left; exact H | right; exact H].
Qed.

Lemma follow_directory_entries_reports_last_visit_witness :
  exists out log',
    follow_directory_entries Sample.sample_host 16 Sample.volume
      Sample.root_inode (Some []) (fun _ ino => if ino =? 13 then 1 else 0) []
    = (Ret (13, out), log')
    /\ ((13 = 0 /\ out = Some [])
        \/ exists l name,
             log' = l ++ [EvVisit name 13]
             /\ (fun (_ : list byte) ino => if ino =? 13 then 1 else 0)
                  name 13 <> 0).
Proof.
  eexists _, _. split; [vm_compute; reflexivity|].
  eapply (follow_directory_entries_reports_last_visit Sample.sample_host
            Sample.volume Sample.root_inode (Some [])
            (fun _ ino => if ino =? 13 then 1 else 0) 16 []).
  vm_compute. reflexivity.
Defined.

(** X10: a name lookup that returns a non-zero inode number has just
    visited an entry with exactly the name looked up and that inode
    number. *)
Theorem find_file_in_directory_sound (h : host) (v : volume_t)
  (inode name : list byte) (buffer : option (list byte)) (fuel : nat)
  (log log' : list event) (n : Z) (out : option (list byte)) :
  find_file_in_directory h fuel v inode name buffer log
  = (Ret (n, out), log') ->
  n <> 0 ->
  exists l, log' = l ++ [EvVisit (cstring name) n].
Proof.
  intros H Hn. unfold find_file_in_directory in H.
  apply follow_directory_entries_result in H.
  destruct H as [[H0 _] | [_ (l & nm & Hlog & Hf)]]; [contradiction|].
  exists l. unfold compare_file_name in Hf.
  destruct (bytes_eqb nm (cstring name)) eqn:E; [|contradiction].
  apply bytes_eqb_eq in E. subst nm. exact Hlog.
Qed.

Lemma find_file_in_directory_sound_witness :
  exists out log',
    find_file_in_directory Sample.sample_host 16 Sample.volume
      Sample.root_inode Sample.dot (Some []) []
    = (Ret (2, out), log')
    /\ 2 <> 0
    /\ exists l, log' = l ++ [EvVisit (cstring Sample.dot) 2].
Proof.
  assert (Hn : 2 <> 0) by discriminate.
  eexists _, _. split; [vm_compute; reflexivity|]. split; [exact Hn|].
  eapply (find_file_in_directory_sound Sample.sample_host Sample.volume
            Sample.root_inode Sample.dot (Some []) 16 []);
    [vm_compute; reflexivity | exact Hn].
Defined.

(** ** Path resolution from the root *)

Lemma de_inode_no_root (buf : list byte) :
  de_inode_no (poke 0 (le_bytes 4 2) buf) = 2.
Proof. reflexivity. Qed.

Lemma length_uninit (h : host) (n : nat) : length (uninit h n) = n.
Proof. unfold uninit. rewrite length_map, length_seq. reflexivity. Qed.

Lemma into_local_fits (cap : nat) (c : M (Z * list byte))
  (log log' : list event) (r : Z) (buf : list byte) :
  c log = (Ret (r, buf), log') ->
  (length buf <= cap)%nat ->
  into_local cap c log = (Ret (r, buf), log').
Proof.
  intros E Hlen. unfold into_local, bind. rewrite E.
  rewrite (proj2 (Nat.leb_le (length buf) cap) Hlen). reflexivity.
Qed.

Lemma find_file_from_path_root_run (h : host) (v : volume_t) (fuel : nat)
  (gd : list byte) (others : list (list byte)) (rest dest : list byte)
  (log : list event) :
  groups v = gd :: others ->
  s_inode_size (super v) <= Z.of_nat sizeof_inode ->
  rest = [] \/ (exists t, rest = slash :: t) ->
  exists r root log',
    read_block h v (bg_inode_table gd) (s_inode_size (super v))
      (s_inode_size (super v)) (uninit h sizeof_inode) log
    = (Ret (r, root), log')
    /\ length root = sizeof_inode
    /\ find_file_from_path h fuel v (slash :: rest) dest log
       = (Ret (2, root), log')
    /\ length log' = S (length log)
    /\ visits log' = visits log.
Proof.
  intros Hg Hsize Hrest.
  pose proof (field_nonneg 88 2 (super v)) as Hnn.
  change (field 88 2 (super v)) with (s_inode_size (super v)) in Hnn.
  change (Z.of_nat sizeof_inode) with 128 in Hsize.
  destruct (pread_returns h (fd v) (uninit h sizeof_inode)
              (wrap32 (s_inode_size (super v)))
              (wrap32 (wrap32 (block_size v * wrap32 (bg_inode_table gd))
                       + wrap32 (s_inode_size (super v)))) log)
    as (r & root & E & _ & _ & Hlen).
  assert (Hroot : length root = sizeof_inode).
  { rewrite Hlen; [apply length_uninit|].
    rewrite length_uninit, wrap32_small by lia.
    change sizeof_inode with (Z.to_nat 128). lia. }
  eexists r, root, _.
  assert (Hrb : read_block h v (bg_inode_table gd) (s_inode_size (super v))
                  (s_inode_size (super v)) (uninit h sizeof_inode) log
                = (Ret (r, root),
                   log ++ [EvPread (fd v) (wrap32 (s_inode_size (super v)))
                             (wrap32 (wrap32 (block_size v
                                              * wrap32 (bg_inode_table gd))
                                      + wrap32 (s_inode_size (super v)))) r]))
    by exact E.
  split; [exact Hrb|]. split; [exact Hroot|]. split.
  - unfold find_file_from_path. cbv zeta.
    assert (Hloop : forall currInode currDir l,
               find_file_from_path_loop h (length (cstring (slash :: rest)))
                 fuel v (cstring (slash :: rest)) 1 1 1 currInode currDir l
               = (Ret (currInode, currDir), l)).
    { intros ci cd l.
      destruct Hrest as [-> | [t ->]]; reflexivity. }
    assert (Hhead : Byte.eqb (path_at (cstring (slash :: rest)) 0) slash
                    = true) by reflexivity.
    rewrite Hhead. unfold index. rewrite Hg. cbn [Z.ltb Z.compare Z.to_nat
      nth_error]. unfold bind at 1. unfold ret at 1. cbv beta iota.
    unfold bind at 1.
    rewrite (into_local_fits sizeof_inode _ _ _ _ _ Hrb)
      by (rewrite Hroot; apply Nat.le_refl).
    unfold bind at 1. rewrite Hloop.
    unfold ret. rewrite de_inode_no_root. reflexivity.
  - split; [rewrite length_app; cbn; lia|].
    unfold visits. rewrite filter_app. cbn. apply app_nil_r.
Qed.

(** X11: the root and empty components.  On a volume whose inode records
    fit the 128-byte inode object, for the path [/] and for any path that
    starts with two separators, resolution reads the second record of the
    first group's inode table (one storage read, no directory entry
    visited) and returns inode number 2 with that record: an empty
    component ends the walk instead of being skipped. *)
Theorem find_file_from_path_root (h : host) (v : volume_t) (fuel : nat)
  (gd : list byte) (others : list (list byte)) (rest dest : list byte)
  (log : list event) :
  groups v = gd :: others ->
  s_inode_size (super v) <= Z.of_nat sizeof_inode ->
  rest = [] \/ (exists t, rest = slash :: t) ->
  exists r root log',
    read_block h v (bg_inode_table gd) (s_inode_size (super v))
      (s_inode_size (super v)) (uninit h sizeof_inode) log
    = (Ret (r, root), log')
    /\ length root = sizeof_inode
    /\ find_file_from_path h fuel v (slash :: rest) dest log
       = (Ret (2, root), log')
    /\ length log' = S (length log)
    /\ visits log' = visits log.
Proof.
  exact (find_file_from_path_root_run h v fuel gd others rest dest log).
Qed.

Lemma find_file_from_path_root_witness :
  s_inode_size (super Sample.volume) <= Z.of_nat sizeof_inode
  /\ exists root log',
       find_file_from_path Sample.sample_host 16 Sample.volume [slash] [] []
       = (Ret (2, root), log')
       /\ length log' = S (length (@nil event)).
Proof.
  assert (Hs : s_inode_size (super Sample.volume) <= Z.of_nat sizeof_inode)
    by (vm_compute; congruence).
  split; [exact Hs|].
  destruct (find_file_from_path_root Sample.sample_host Sample.volume 16
              Sample.group_desc [] [] [] [] eq_refl Hs (or_introl eq_refl))
    as (r & root & log' & _ & _ & Hrun & Hlen & _).
  exists root, log'. split; [exact Hrun | exact Hlen].
Defined.

(** ** Locating an inode *)

(** X12: the inode reader.  For an inode number [n >= 1] whose group
    [(n - 1) / inodes_per_group] is in the descriptor table, [read_inode]
    is one [read_block] of [s_inode_size] bytes from that group's inode
    table, at byte [((n - 1) mod inodes_per_group) * s_inode_size]. *)
Theorem read_inode_locates (h : host) (v : volume_t) (inode_no : Z)
  (gd : list byte) (buffer : list byte) (log : list event) :
  1 <= inode_no <= 2 ^ 31 ->
  s_inodes_per_group (super v) <> 0 ->
  nth_error (groups v)
    (Z.to_nat ((inode_no - 1) / s_inodes_per_group (super v))) = Some gd ->
  read_inode h v inode_no buffer log
  = read_block h v (bg_inode_table gd)
      ((inode_no - 1) mod s_inodes_per_group (super v)
       * s_inode_size (super v))
      (s_inode_size (super v)) buffer log.
Proof.
  intros Hn Hipg Hgd.
  pose proof (field4_range 40 (super v)) as Hr.
  change (field 40 4 (super v)) with (s_inodes_per_group (super v)) in Hr.
  set (ipg := s_inodes_per_group (super v)) in *.
  assert (Hq : 0 <= (inode_no - 1) / ipg <= inode_no - 1).
  { split; [apply Z.div_pos; lia|].
    apply Z.div_le_upper_bound; [lia | nia]. }
  assert (Hm : 0 <= (inode_no - 1) mod ipg <= inode_no - 1).
  { pose proof (Z.mod_pos_bound (inode_no - 1) ipg ltac:(lia)).
    pose proof (Z.mod_le (inode_no - 1) ipg ltac:(lia) ltac:(lia)). lia. }
  unfold read_inode, udiv, umod. cbv zeta. fold ipg.
  rewrite (proj2 (Z.eqb_neq ipg 0)) by exact Hipg.
  rewrite (wrap32_small inode_no) by lia.
  rewrite (wrap32_small (inode_no - 1)) by lia.
  unfold bind at 1. unfold ret at 1. cbv beta iota.
  unfold bind at 1. unfold ret at 1. cbv beta iota.
  rewrite (sint32_small ((inode_no - 1) / ipg)) by lia.
  rewrite (sint32_small ((inode_no - 1) mod ipg)) by lia.
  unfold index. rewrite (proj2 (Z.ltb_ge _ 0)) by lia. rewrite Hgd.
  unfold bind at 1. unfold ret at 1. reflexivity.
Qed.

Lemma read_inode_locates_witness :
  1 <= 12 <= 2 ^ 31
  /\ s_inodes_per_group (super Sample.volume) <> 0
  /\ read_inode Sample.sample_host Sample.volume 12 [] []
     = read_block Sample.sample_host Sample.volume
         (bg_inode_table Sample.group_desc)
         ((12 - 1) mod s_inodes_per_group (super Sample.volume)
          * s_inode_size (super Sample.volume))
         (s_inode_size (super Sample.volume)) [] [].
Proof.
  assert (Hn : 1 <= 12 <= 2 ^ 31) by (split; vm_compute; congruence).
  assert (Hi : s_inodes_per_group (super Sample.volume) <> 0)
    by (vm_compute; congruence).
  split; [exact Hn | split; [exact Hi|]].
  apply (read_inode_locates Sample.sample_host Sample.volume 12
           Sample.group_desc [] [] Hn Hi).
  reflexivity.
Defined.

(** ** Bootstrap *)

Lemma pread_over_uninit (h : host) (fd : Z) (data : list byte) (n : nat)
  (off : Z) (log : list event) :
  h_file h fd = Some data ->
  0 <= off ->
  off + Z.of_nat n <= Z.of_nat (length data) ->
  pread h fd (uninit h n) (Z.of_nat n) off log
  = (Ret (Z.of_nat n, firstn n (skipn (Z.to_nat off) data)),
     log ++ [EvPread fd (Z.of_nat n) off (Z.of_nat n)]).
Proof.
  intros Hfile Hoff Hfit.
  rewrite (pread_full h fd data (uninit h n) (Z.of_nat n) off log Hfile Hoff)
    by lia.
  rewrite Nat2Z.id.
  rewrite (skipn_all2 (uninit h n)) by (rewrite length_uninit; lia).
  rewrite app_nil_r. reflexivity.
Qed.

(** X13: a file too short for the superblock.  When the file behind the
    descriptor holds fewer than 1228 bytes, [open_volume_file] returns
    NULL after its one attempt to read the superblock. *)
Theorem open_volume_file_short_file (h : host) (filename : String.string)
  (data : list byte) (log : list event) :
  0 <= h_open h filename ->
  h_file h (h_open h filename) = Some data ->
  Z.of_nat (length data) < 1228 ->
  exists r,
    open_volume_file h filename log
    = (Ret None, log ++ [EvPread (h_open h filename) 204 1024 r])
    /\ 0 <= r < 204.
Proof.
  intros Hfd Hfile Hshort.
  unfold open_volume_file. cbv zeta.
  rewrite (proj2 (Z.ltb_ge (h_open h filename) 0)) by lia.
  unfold pread. rewrite Hfile. cbn [Z.ltb Z.compare].
  set (got := firstn _ (skipn _ data)).
  assert (Hgot : 0 <= Z.of_nat (length got) < 204).
  { unfold got. rewrite length_firstn. lia. }
  exists (Z.of_nat (length got)). split; [|exact Hgot].
  unfold bind, emit, ret. cbv beta iota.
  rewrite (sint32_small (Z.of_nat (length got))) by lia.
  rewrite (proj2 (Z.eqb_neq (Z.of_nat (length got)) 204)) by lia.
  reflexivity.
Qed.

Lemma open_volume_file_short_file_witness :
  let h := Sample.host_of (Sample.fill x00 1200) in
  0 <= h_open h Sample.image_name
  /\ exists r,
       open_volume_file h Sample.image_name []
       = (Ret None, [] ++ [EvPread (h_open h Sample.image_name) 204 1024 r])
       /\ 0 <= r < 204.
Proof.
  cbv zeta.
  assert (Hfd : 0 <= h_open (Sample.host_of (Sample.fill x00 1200))
                       Sample.image_name) by (vm_compute; congruence).
  split; [exact Hfd|].
  apply (open_volume_file_short_file (Sample.host_of (Sample.fill x00 1200))
           Sample.image_name (Sample.fill x00 1200) [] Hfd);
    [reflexivity | vm_compute; reflexivity].
Defined.

(** X14: what bootstrap derives.  When the file holds the superblock
    and 32 bytes at byte [1024 + block_size], the block-size log factor is
    at most 20 and the blocks-per-group count is not 0, [open_volume_file]
    makes exactly two reads and returns a volume that carries the
    descriptor, the 204 superblock bytes found at byte 1024, the block size
    [1024 * 2^log] and a group count equal to the block count divided by
    the blocks per group, rounded up; the descriptor record it has read is
    freed, so the volume's table holds no readable record. *)
Theorem open_volume_file_geometry (h : host) (filename : String.string)
  (data : list byte) (log : list event) :
  let desc := h_open h filename in
  let sb := firstn 204 (skipn (Z.to_nat 1024) data) in
  let bs := 1024 * 2 ^ s_log_block_size sb in
  0 <= desc ->
  h_file h desc = Some data ->
  1228 <= Z.of_nat (length data) ->
  s_log_block_size sb <= 20 ->
  1024 + bs + 32 <= Z.of_nat (length data) ->
  s_blocks_per_group sb <> 0 ->
  exists v,
    open_volume_file h filename log
    = (Ret (Some v),
       log ++ [EvPread desc 204 1024 204; EvPread desc 32 (1024 + bs) 32])
    /\ fd v = desc
    /\ super v = sb
    /\ block_size v = bs
    /\ groups v = []
    /\ s_blocks_count sb <= num_groups v * s_blocks_per_group sb
       < s_blocks_count sb + s_blocks_per_group sb.
Proof.
  cbv zeta. intros Hdesc Hfile Hlen Hlog Hlen2 Hbpg.
  set (desc := h_open h filename) in *.
  set (sb := firstn 204 (skipn (Z.to_nat 1024) data)) in *.
  pose proof (field4_range 24 sb) as Hlg.
  change (field 24 4 sb) with (s_log_block_size sb) in Hlg.
  set (lg := s_log_block_size sb) in *.
  assert (Hpow : 1 <= 2 ^ lg <= 2 ^ 20).
  { split; [|apply Z.pow_le_mono_r; lia].
    pose proof (Z.pow_pos_nonneg 2 lg ltac:(lia) ltac:(lia)). lia. }
  assert (Hshift : wrap32 (Z.shiftl 1024 (lg mod 32)) = 1024 * 2 ^ lg).
  { rewrite Z.mod_small by lia. rewrite Z.shiftl_mul_pow2 by lia.
    apply wrap32_small. lia. }
  set (bs := 1024 * 2 ^ lg) in *.
  assert (Hposw : wrap32 (1024 + bs) = 1024 + bs)
    by (apply wrap32_small; unfold bs; lia).
  pose proof (field4_range 4 sb) as Hbc.
  pose proof (field4_range 32 sb) as Hbpg'.
  change (field 4 4 sb) with (s_blocks_count sb) in Hbc.
  change (field 32 4 sb) with (s_blocks_per_group sb) in Hbpg'.
  set (bc := s_blocks_count sb) in *.
  set (bpg := s_blocks_per_group sb) in *.
  assert (Hdm : bc = bpg * (bc / bpg) + bc mod bpg)
    by (apply Z.div_mod; exact Hbpg).
  pose proof (Z.mod_pos_bound bc bpg ltac:(lia)) as Hr.
  assert (Hq : 0 <= bc / bpg) by (apply Z.div_pos; lia).
  set (ng := bc / bpg + (if bc mod bpg =? 0 then 0 else 1)).
  assert (Hng : 0 <= ng < 2 ^ 32 /\ bc <= ng * bpg < bc + bpg).
  { unfold ng. destruct (Z.eqb_spec (bc mod bpg) 0) as [E0|E0]; nia. }
  eexists (mkVolume desc bs (wrap32 (bs * bc)) ng sb []).
  split; [|cbn [fd super block_size groups num_groups];
           repeat split; try reflexivity; apply Hng].
  unfold open_volume_file. cbv zeta. fold desc.
  rewrite (proj2 (Z.ltb_ge desc 0)) by lia.
  change 204 with (Z.of_nat sizeof_superblock) at 1.
  unfold bind at 1.
  rewrite (pread_over_uninit h desc data sizeof_superblock 1024 log Hfile)
    by (cbn; lia).
  change (Z.of_nat sizeof_superblock) with 204.
  change (firstn sizeof_superblock (skipn (Z.to_nat 1024) data)) with sb.
  change (negb (sint32 204 =? 204)) with false. cbv iota.
  fold lg. rewrite Hshift, Hposw. unfold udiv, umod. fold bc bpg.
  rewrite (proj2 (Z.eqb_neq bpg 0)) by exact Hbpg.
  unfold bind at 1. unfold ret at 1. cbv beta iota.
  unfold bind at 1. unfold ret at 1. cbv beta iota.
  fold ng.
  change 32 with (Z.of_nat sizeof_group_desc) at 1.
  unfold bind at 1.
  rewrite (pread_over_uninit h desc data sizeof_group_desc (1024 + bs)
             (log ++ [EvPread desc 204 1024 204]) Hfile)
    by (change (Z.of_nat sizeof_group_desc) with 32; unfold bs in *; lia).
  change (Z.of_nat sizeof_group_desc) with 32.
  change (negb (sint32 32 =? 32)) with false. cbv iota.
  rewrite (wrap32_small ng) by lia. rewrite <- app_assoc. reflexivity.
Qed.

Lemma open_volume_file_geometry_witness :
  s_log_block_size (firstn 204 (skipn (Z.to_nat 1024) Sample.image)) <= 20
  /\ exists v,
       open_volume_file Sample.sample_host Sample.image_name []
       = (Ret (Some v), [] ++ [EvPread 3 204 1024 204; EvPread 3 32 2048 32])
       /\ block_size v = 1024
       /\ groups v = [].
Proof.
  assert (Hlog : s_log_block_size
                   (firstn 204 (skipn (Z.to_nat 1024) Sample.image)) <= 20)
    by (vm_compute; congruence).
  split; [exact Hlog|].
  destruct (open_volume_file_geometry Sample.sample_host Sample.image_name
              Sample.image [])
    as (v & Hrun & _ & _ & Hbs & Hgr & _).
  - vm_compute. congruence.
  - reflexivity.
  - vm_compute. congruence.
  - exact Hlog.
  - vm_compute. congruence.
  - vm_compute. congruence.
  - exists v. split; [exact Hrun|]. split; [|exact Hgr].
    rewrite Hbs. vm_compute. reflexivity.
Defined.

(** ** The bridge callbacks *)

(** X15: opening a directory.  For a read-only open of a path that
    resolves to an inode whose mode has the directory type
    ([mode & 0xF000 = 0x4000]), [ext2_open] returns 0 and stores the inode
    number as the handle: its test [i_mode == 0x2000] never holds for a
    directory, so [-EISDIR] is not returned. *)
Theorem ext2_open_directory (h : host) (fuel : nat) (v : volume_t)
  (path : list byte) (flags fh : Z) (log log' : list event) (n : Z)
  (inode : list byte) :
  Z.land flags O_WRONLY = 0 ->
  Z.land flags O_RDWR = 0 ->
  find_file_from_path h fuel v path (uninit h sizeof_inode) log
  = (Ret (n, inode), log') ->
  n <> 0 ->
  Z.land (i_mode inode) 61440 = 16384 ->
  ext2_open h fuel v path flags fh log = (Ret (0, n), log').
Proof.
  intros Hw Hrw Hfind Hn Hdir. unfold ext2_open.
  rewrite Hw, Hrw. cbn [Z.eqb negb orb].
  unfold bind. rewrite Hfind.
  rewrite (proj2 (Z.eqb_neq n 0)) by exact Hn.
  destruct (Z.eqb_spec (i_mode inode) 8192) as [E|E]; [|reflexivity].
  rewrite E in Hdir. discriminate Hdir.
Qed.

Lemma ext2_open_directory_witness :
  Z.land 0 O_WRONLY = 0
  /\ Z.land 0 O_RDWR = 0
  /\ 2 <> 0
  /\ Z.land (i_mode Sample.root_inode) 61440 = 16384
  /\ fst (ext2_open Sample.sample_host 16 Sample.volume [slash] 0 0 [])
     = Ret (0, 2).
Proof.
  assert (Hw : Z.land 0 O_WRONLY = 0) by reflexivity.
  assert (Hrw : Z.land 0 O_RDWR = 0) by reflexivity.
  assert (Hn : 2 <> 0) by discriminate.
  assert (Hd : Z.land (i_mode Sample.root_inode) 61440 = 16384)
    by reflexivity.
  split; [exact Hw | split; [exact Hrw | split; [exact Hn
    | split; [exact Hd|]]]].
  rewrite (ext2_open_directory Sample.sample_host 16 Sample.volume [slash]
             0 0 [] [EvPread 3 128 5248 128] 2 Sample.root_inode Hw Hrw);
    [reflexivity | vm_compute; reflexivity | exact Hn | exact Hd].
Defined.

(** X16: listing a directory.  With a filler that accepts every name
    (returns 0), a call of [ext2_readdir] that returns returns [-ENOENT]:
    the iteration then ends with 0, which the callback takes for a
    failure. *)
Theorem ext2_readdir_accepting_filler (h : host) (fuel : nat) (v : volume_t)
  (path : list byte) (filler : list byte -> Z) (log log' : list event)
  (r : Z) :
  (forall name, filler name = 0) ->
  ext2_readdir h fuel v path filler log = (Ret r, log') ->
  r = - ENOENT.
Proof.
  intros Hfill H. unfold ext2_readdir in H.
  apply bind_Ret in H as ([n dirInode] & l1 & _ & H).
  destruct (n =? 0); [injection H as <- _; reflexivity|].
  apply bind_Ret in H as ([found out] & l2 & Hfollow & H).
  apply follow_directory_entries_result in Hfollow.
  destruct Hfollow as [[-> _] | [_ (l & name & _ & Hf)]].
  - injection H as <- _. reflexivity.
  - unfold readdir_helper_function in Hf. rewrite Hfill in Hf.
    contradiction.
Qed.

Lemma ext2_readdir_accepting_filler_witness :
  exists log',
    ext2_readdir Sample.sample_host 16 Sample.volume [slash] (fun _ => 0) []
    = (Ret (- ENOENT), log')
    /\ - ENOENT = - ENOENT.
Proof.
  eexists. split; [vm_compute; reflexivity|].
  eapply (ext2_readdir_accepting_filler Sample.sample_host 16 Sample.volume
            [slash] (fun _ => 0) []);
    [intros name; reflexivity | vm_compute; reflexivity].
Defined.

(** X17: reading a short symbolic link.  When the path resolves to an
    inode of at most 60 bytes, [ext2_readlink] returns 0 and the caller's
    buffer is exactly as it was: the target stored in the inode is never
    copied out. *)
Theorem ext2_readlink_inline_target (h : host) (fuel : nat) (v : volume_t)
  (path buf : list byte) (size : Z) (log log' : list event) (n : Z)
  (inode : list byte) :
  find_file_from_path h fuel v path (uninit h sizeof_inode) log
  = (Ret (n, inode), log') ->
  i_size inode <= 60 ->
  ext2_readlink h fuel v path buf size log = (Ret (0, buf), log').
Proof.
  intros Hfind Hsize. unfold ext2_readlink, bind. rewrite Hfind.
  rewrite (proj2 (Z.leb_le (i_size inode) 60)) by exact Hsize.
  reflexivity.
Qed.

Lemma ext2_readlink_inline_target_witness :
  exists log',
    find_file_from_path Sample.sample_host 16 Sample.volume
      Sample.path_tiny
      (uninit Sample.sample_host sizeof_inode) []
    = (Ret (15, Sample.tiny_inode), log')
    /\ i_size Sample.tiny_inode <= 60
    /\ ext2_readlink Sample.sample_host 16 Sample.volume
         Sample.path_tiny [x01; x02] 2 []
       = (Ret (0, [x01; x02]), log').
Proof.
  assert (Hs : i_size Sample.tiny_inode <= 60) by (vm_compute; congruence).
  eexists. split; [vm_compute; reflexivity|]. split; [exact Hs|].
  apply (ext2_readlink_inline_target Sample.sample_host 16 Sample.volume
           Sample.path_tiny [x01; x02] 2 [] _ 15
           Sample.tiny_inode);
    [vm_compute; reflexivity | exact Hs].
Defined.

(** X18: the metadata of the root.  On a volume with at least one group
    descriptor whose inode records fit the 128-byte inode object,
    [ext2_getattr] for the path [/] makes the one read of the root inode
    record and reports inode number 2 with the mode, link count, owner,
    group, size, times and block count of that record. *)
Theorem ext2_getattr_root (h : host) (fuel : nat) (v : volume_t)
  (gd : list byte) (others : list (list byte)) (stbuf : stat)
  (log : list event) :
  groups v = gd :: others ->
  s_inode_size (super v) <= Z.of_nat sizeof_inode ->
  exists r root log',
    read_block h v (bg_inode_table gd) (s_inode_size (super v))
      (s_inode_size (super v)) (uninit h sizeof_inode) log
    = (Ret (r, root), log')
    /\ length root = sizeof_inode
    /\ length log' = S (length log)
    /\ ext2_getattr h fuel v [slash] stbuf log
       = (Ret (0, mkStat 2 (i_mode root) (i_links_count root) (i_uid root)
                    (i_gid root) (i_size root) (i_atime root) (i_mtime root)
                    (i_ctime root) (i_blocks root)),
          log').
Proof.
  intros Hg Hsize.
  destruct (find_file_from_path_root_run h v fuel gd others []
              (uninit h sizeof_inode) log Hg Hsize (or_introl eq_refl))
    as (r & root & log' & Hrb & Hroot & Hfind & Hlen & _).
  exists r, root, log'. split; [exact Hrb|]. split; [exact Hroot|].
  split; [exact Hlen|].
  unfold ext2_getattr, bind. rewrite Hfind. reflexivity.
Qed.

Lemma ext2_getattr_root_witness :
  s_inode_size (super Sample.volume) <= Z.of_nat sizeof_inode
  /\ exists st log',
       ext2_getattr Sample.sample_host 16 Sample.volume [slash]
         (mkStat 0 0 0 0 0 0 0 0 0 0) []
       = (Ret (0, st), log')
       /\ st_ino st = 2.
Proof.
  assert (Hs : s_inode_size (super Sample.volume) <= Z.of_nat sizeof_inode)
    by (vm_compute; congruence).
  split; [exact Hs|].
  destruct (ext2_getattr_root Sample.sample_host 16 Sample.volume
              Sample.group_desc [] (mkStat 0 0 0 0 0 0 0 0 0 0) [] eq_refl Hs)
    as (r & root & log' & _ & _ & _ & Hrun).
  eexists _, log'. split; [exact Hrun | reflexivity].
Defined.

(** ** Reads clamped by the file size *)

Lemma read_file_content_within_file_witness :
  geometry_ok Sample.volume
  /\ 0 <= 1000 <= inode_file_size Sample.volume Sample.hello_inode
  /\ 1000 + 2000 < 2 ^ 64
  /\ exists rv buffer' log',
       read_file_content Sample.sample_host 1048 Sample.volume
         Sample.hello_inode 1000 2000 (Sample.fill x00 2000) []
       = (Ret (rv, buffer'), log')
       /\ rv <= inode_file_size Sample.volume Sample.hello_inode - 1000
       /\ rv <= 2000.
Proof.
  assert (Ho : 0 <= 1000 <= inode_file_size Sample.volume Sample.hello_inode)
    by (split; vm_compute; congruence).
  assert (Hm : 0 <= 2000) by (vm_compute; congruence).
  assert (Hs : 1000 + 2000 < 2 ^ 64) by reflexivity.
  split; [exact sample_geometry_ok | split; [exact Ho | split; [exact Hs|]]].
  apply (read_file_content_within_file Sample.sample_host 1048 Sample.volume
           Sample.hello_inode 1000 2000 (Sample.fill x00 2000) []
           sample_geometry_ok Ho Hm Hs).
  vm_compute. apply Nat.le_refl.
Defined.

Lemma read_file_content_at_eof_witness :
  0 < 10
  /\ inode_file_size Sample.volume Sample.tiny_inode + 10 < 2 ^ 64
  /\ read_file_content Sample.sample_host 0 Sample.volume Sample.tiny_inode
       (inode_file_size Sample.volume Sample.tiny_inode) 10 [x07] []
     = (Ret (0, [x07]), []).
Proof.
  assert (Hp : 0 < 10) by reflexivity.
  assert (Hs : inode_file_size Sample.volume Sample.tiny_inode + 10 < 2 ^ 64)
    by reflexivity.
  split; [exact Hp | split; [exact Hs|]].
  exact (read_file_content_at_eof Sample.sample_host 0 Sample.volume
           Sample.tiny_inode 10 [x07] [] Hp Hs).
Defined.

(** ** A directory of size 0 *)



(** ** A read served by one direct block *)

(** X22: a read that stays inside the file and inside one of its twelve
    direct blocks, with the block present in the storage, is served by one
    storage read at byte [block_size * block + offset mod block_size]:
    [read_file_content] returns the requested length and the head of the
    buffer holds exactly those bytes of the storage. *)
Theorem read_file_content_direct_block (h : host) (fuel : nat) (v : volume_t)
  (data inode : list byte) (offset max_size : Z) (buffer : list byte)
  (log : list event) :
  let block := i_block inode (offset / block_size v) in
  let pos := block_size v * block + offset mod block_size v in
  h_file h (fd v) = Some data ->
  0 < block_size v < 2 ^ 32 ->
  0 <= offset < 12 * block_size v ->
  0 < max_size < 2 ^ 31 ->
  offset + max_size <= inode_file_size v inode ->
  offset mod block_size v + max_size <= block_size v ->
  pos < 2 ^ 32 ->
  pos + max_size <= Z.of_nat (length data) ->
  read_file_content h (S fuel) v inode offset max_size buffer log
  = (Ret (max_size,
          firstn (Z.to_nat max_size) (skipn (Z.to_nat pos) data)
          ++ skipn (Z.to_nat max_size) buffer),
     log ++ [EvPread (fd v) max_size pos max_size]).
Proof.
  cbv zeta. intros Hfile Hbs Hoff Hmax Hfs Hin Hpos Hfit.
  pose proof (field4_range 4 inode) as Hsz.
  change (field 4 4 inode) with (inode_file_size v inode) in Hsz.
  pose proof (field4_range (40 + 4 * Z.to_nat (offset / block_size v)) inode)
    as Hblk.
  change (field (40 + 4 * Z.to_nat (offset / block_size v)) 4 inode)
    with (i_block inode (offset / block_size v)) in Hblk.
  pose proof (Z.mod_pos_bound offset (block_size v) ltac:(lia)) as Hm.
  unfold read_file_content, clamp_max_size. cbv zeta.
  rewrite (wrap64_small offset), (wrap64_small max_size) by lia.
  rewrite (wrap64_small (offset + max_size)) by lia.
  destruct (Z.gtb_spec (offset + max_size) (inode_file_size v inode)) as [Hgt|_];
    [lia|].
  rewrite read_file_content_loop_first by lia.
  unfold bind.
  rewrite (read_file_block_direct_eq h v inode offset max_size buffer log)
    by lia.
  rewrite Z.min_l by lia.
  rewrite (read_block_content_eq h v data (i_block inode (offset / block_size v))
             (offset mod block_size v) max_size buffer log Hfile)
    by lia.
  rewrite (sint32_small max_size) by lia.
  rewrite (proj2 (Z.leb_gt max_size 0)) by lia.
  rewrite (wrap32_small max_size) by lia.
  destruct fuel; cbn [read_file_content_loop];
    rewrite Z.ltb_irrefl; reflexivity.
Qed.

Lemma read_file_content_direct_block_witness :
  h_file Sample.sample_host (fd Sample.volume) = Some Sample.image
  /\ read_file_content Sample.sample_host 1 Sample.volume Sample.hello_inode
       1030 4 [x00; x00; x00; x00; x00] []
     = (Ret (4, [x42; x42; x42; x42; x00]), [EvPread 3 4 9222 4]).
Proof.
  assert (Hf : h_file Sample.sample_host (fd Sample.volume)
               = Some Sample.image) by reflexivity.
  split; [exact Hf|].
  rewrite (read_file_content_direct_block Sample.sample_host 0 Sample.volume
             Sample.image Sample.hello_inode 1030 4
             [x00; x00; x00; x00; x00] [] Hf);
    vm_compute; try split; congruence.
Defined.
